(** * Taxonomy: tree flattening, filtered reconstruction and path selection

    A shallow embedding of the algorithmic core of
    [src/components/Taxonomy/Taxonomy.tsx] (and of its virtualised sibling,
    which shares [isSubArray], [flatten], [setSelected] and
    [optionsWithMaxUsages] verbatim), together with the properties stated
    about it.

    Conventions of the embedding:
    - a JavaScript array is a [list]; the sparse array [childs], which the
      code indexes by an integer depth and tests for holes, is a
      [gmap Z (list TaxonomyItem)] (a hole is an absent key);
    - an integer-valued JavaScript [number] is a [Z];
    - an optional field is an [option];
    - an operation that can throw returns a [Completion]. *)

From Stdlib Require Import ZArith String Ascii.
From stdpp Require Import base option list gmap strings.

#[local] Set Warnings "-register-all".
#[local] Open Scope Z_scope.

(** ** A fragment of JavaScript semantics *)

(** What went wrong when an operation throws. The only exception the
    modelled code can raise is the [TypeError] of calling a method on
    [undefined]; it records the index whose slot was a hole. *)
Inductive JsError : Type :=
  | TypeError_undefined_slot (index : Z).

(** The outcome of running a statement: normal completion with a value, or
    an exception. *)
Inductive Completion (A : Type) : Type :=
  | Normal (a : A)
  | Throw (e : JsError).
Arguments Normal {A} a.
Arguments Throw {A} e.

(** Sequencing: an exception skips the rest. Registered as stdpp's
    [MBind], which gives the notation [x ← c; k]. *)
#[global] Instance Completion_bind : MBind Completion :=
  fun A B (k : A -> Completion B) (c : Completion A) =>
    match c with
    | Normal a => k a
    | Throw e => Throw e
    end.

#[global] Instance Completion_ret : MRet Completion := @Normal.

(** [for (…) body] over the elements [xs], threading the loop state and
    stopping at the first exception. *)
Fixpoint forEachC {S A : Type} (body : S -> A -> Completion S)
    (xs : list A) (st : S) : Completion S :=
  match xs with
  | [] => Normal st
  | x :: xs' => st' ← body st x; forEachC body xs' st'
  end.

(** Truthiness of a number: every number but [0] (and [NaN], which an
    integer never is). *)
Definition truthy_number (n : Z) : bool := negb (n =? 0).

(** Truthiness of an optional number: [undefined] is falsy. *)
Definition truthy_opt_number (o : option Z) : bool :=
  match o with
  | Some n => truthy_number n
  | None => false
  end.

(** Truthiness of an optional boolean. *)
Definition truthy_opt_bool (o : option bool) : bool :=
  match o with
  | Some b => b
  | None => false
  end.

(** Truthiness of a string: every string but the empty one. *)
Definition truthy_string (s : string) : bool :=
  match s with
  | EmptyString => false
  | String _ _ => true
  end.

(** [xs.every((x, i) => f(x, i))]. *)
Definition every_i {A : Type} (f : A -> nat -> bool) (xs : list A) : bool :=
  forallb id (imap (fun i x => f x i) xs).

(** [xs.some(f)]. *)
Definition some {A : Type} (f : A -> bool) (xs : list A) : bool :=
  existsb f xs.

(** ** Data model *)

Definition TaxonomyPath : Type := list string.

(** [type TaxonomyItem = { label, path, depth, children?, custom? }]. *)
Inductive TaxonomyItem : Type := mkItem {
  label : string;
  path : TaxonomyPath;
  depth : Z;
  children : option (list TaxonomyItem);
  custom : option bool;
}.

(** [type TaxonomyOptions]. *)
Record TaxonomyOptions : Type := mkOptions {
  leafsOnly : option bool;
  showFullPath : option bool;
  pathSeparator : option string;
  maxUsages : option Z;
  placeholder : option string;
}.

(** [type TaxonomyOptionsContextValue = TaxonomyOptions & { maxUsagesReached? }]. *)
Record TaxonomyOptionsContextValue : Type := mkOptionsContext {
  ctx_options : TaxonomyOptions;
  maxUsagesReached : option bool;
}.

(** The object spread [{ ...item, children: cs }]: every field of [item]
    is copied and [children] is overridden. *)
Definition with_children (item : TaxonomyItem) (cs : list TaxonomyItem)
  : TaxonomyItem :=
  {| label := label item;
     path := path item;
     depth := depth item;
     children := Some cs;
     custom := custom item |}.

(** ** Filtered-tree reconstruction: [filterTreeByPredicate] *)

(** The three mutable locals of [filterTreeByPredicate]. *)
Record FilterState : Type := mkFilterState {
  roots : list TaxonomyItem;
  childs : gmap Z (list TaxonomyItem);
  d : Z;
}.

Section FilterTree.
Variable predicate : TaxonomyItem -> bool.

(** One iteration of the loop, for [item = flatten[i]].

    No array is shared between two owners here: [childs[d]] is handed
    over to [adjusted] and its slot is overwritten with a fresh array in
    the next statement, so lists are passed by value. *)
Definition filterTree_body (st : FilterState) (item : TaxonomyItem)
  : Completion FilterState :=
  if bool_decide (depth item = d st) then
    (* const adjusted = { ...item, children: childs[d] ?? [] }; *)
    let adjusted := with_children item (default [] (childs st !! d st)) in
    (* childs[d] = []; *)
    let childs1 := <[d st := []]> (childs st) in
    if truthy_number (d st) then
      (* childs[d - 1].unshift(adjusted); *)
      match childs1 !! (d st - 1) with
      | Some siblings =>
          Normal {| roots := roots st;
                    childs := <[d st - 1 := adjusted :: siblings]> childs1;
                    d := d st - 1 |}
      | None => Throw (TypeError_undefined_slot (d st - 1))
      end
    else
      (* roots.unshift(adjusted); *)
      Normal {| roots := adjusted :: roots st;
                childs := childs1;
                d := d st - 1 |}
  else if predicate item then
    (* const adjusted = { ...item, children: [] }; *)
    let adjusted := with_children item [] in
    if bool_decide (depth item = 0) then
      Normal {| roots := adjusted :: roots st;
                childs := childs st;
                d := d st |}
    else
      (* d = item.depth - 1; if (!childs[d]) childs[d] = []; *)
      let d1 := depth item - 1 in
      let siblings := default [] (childs st !! d1) in
      (* childs[d].unshift(adjusted); *)
      Normal {| roots := roots st;
                childs := <[d1 := adjusted :: siblings]> (childs st);
                d := d1 |}
  else Normal st.

(** [for (let i = flatten.length; i--; )] visits the indices from the
    last to the first. *)
Definition filterTreeByPredicate (flatten : list TaxonomyItem)
  : Completion (list TaxonomyItem) :=
  st ← forEachC filterTree_body (rev flatten)
         {| roots := []; childs := ∅; d := -1 |};
  mret (roots st).
End FilterTree.

(** ** Tree flattening: the [flatten] memo of [Taxonomy] *)

(** [visitItem] pushes the item on the shared array [flatten] and visits
    its children, if any; the array is threaded through the calls. *)
Fixpoint visitItem (item : TaxonomyItem) (flatten : list TaxonomyItem)
  : list TaxonomyItem :=
  (* flatten.push(item); *)
  let flatten := flatten ++ [item] in
  (* item.children?.forEach(visitItem); *)
  match children item with
  | Some cs => fold_left (fun acc child => visitItem child acc) cs flatten
  | None => flatten
  end.

(** [const flatten = []; items.forEach(visitItem); return flatten;] *)
Definition flatten (items : list TaxonomyItem) : list TaxonomyItem :=
  fold_left (fun acc item => visitItem item acc) items [].

(** ** Path utilities *)

(** Modelled from the spec: [isArraysEqual], which the component imports
    from [utils/utilities] and whose body lies outside it. Two paths are
    equal iff they have the same length and identical elements at every
    index, in order. *)
Definition isArraysEqual (a b : TaxonomyPath) : bool :=
  (length a =? length b)%nat
  && forallb (fun xy => String.eqb (fst xy) (snd xy)) (combine a b).

(** [isSubArray]: check if item is child of parent, i.e. parent is a
    leading subset of item. [item[i]] past the end is [undefined], which
    is not [===] to any string. *)
Definition isSubArray (item parent : TaxonomyPath) : bool :=
  if (length item <=? length parent)%nat then false
  else every_i (fun n i => bool_decide (item !! i = Some n)) parent.

(** ** Selection model *)

(** [setSelected] of the selection context, as a function of the current
    [selected] state it closes over; the result is [newSelected], which is
    both stored and reported through [onChange]. *)
Definition setSelected (selected : list TaxonomyPath) (path : TaxonomyPath)
    (value : bool) : list TaxonomyPath :=
  if value then selected ++ [path]
  else List.filter (fun current => negb (isArraysEqual current path)) selected.

(** [optionsWithMaxUsages]: the caller's options, spread, plus the derived
    flag. *)
Definition optionsWithMaxUsages (options : TaxonomyOptions)
    (selected : list TaxonomyPath) : TaxonomyOptionsContextValue :=
  let maxUsagesReached :=
    match maxUsages options with
    | Some m =>
        if truthy_number m then (Z.of_nat (length selected) >=? m) else false
    | None => false
    end in
  {| ctx_options := options; maxUsagesReached := Some maxUsagesReached |}.

(** The values an [Item] derives from the two contexts while rendering. *)
Section Item.
Variable selected : list TaxonomyPath.
Variable options : TaxonomyOptionsContextValue.

Definition checked (path : TaxonomyPath) : bool :=
  some (fun current => isArraysEqual current path) selected.

Definition isChildSelected (path : TaxonomyPath) : bool :=
  some (fun current => isSubArray current path) selected.

(** [Boolean(item.children?.length)] *)
Definition hasChilds (item : TaxonomyItem) : bool :=
  match children item with
  | Some cs => truthy_number (Z.of_nat (length cs))
  | None => false
  end.

Definition onlyLeafsAllowed (item : TaxonomyItem) : bool :=
  truthy_opt_bool (leafsOnly (ctx_options options)) && hasChilds item.

Definition limitReached (item : TaxonomyItem) : bool :=
  truthy_opt_bool (maxUsagesReached options) && negb (checked (path item)).

Definition disabled (item : TaxonomyItem) : bool :=
  onlyLeafsAllowed item || limitReached item.

(** The value [setIndeterminate] stores in [el.indeterminate]. *)
Definition setIndeterminate (path : TaxonomyPath) : bool :=
  if checked path then false else isChildSelected path.
End Item.

(** ** The dropdown and the events of the widget *)

(** [toLocaleLowerCase], for labels and search strings made of ASCII
    characters, on which it does not depend on the locale. *)
Definition lower_ascii (c : ascii) : ascii :=
  let n := nat_of_ascii c in
  if ((65 <=? n) && (n <=? 90))%nat then ascii_of_nat (n + 32) else c.

Fixpoint toLocaleLowerCase (s : string) : string :=
  match s with
  | EmptyString => EmptyString
  | String c s' => String (lower_ascii c) (toLocaleLowerCase s')
  end.

(** [s.includes(sub)] *)
Fixpoint includes (s sub : string) : bool :=
  if String.prefix sub s then true
  else match s with
       | EmptyString => false
       | String _ s' => includes s' sub
       end.

(** The state of the widget that the selection depends on: the [selected]
    state of [Taxonomy] and the [search] state of [Dropdown]. *)
Record TaxonomyState : Type := mkState {
  st_selected : list TaxonomyPath;
  st_search : string;
}.

(** [Dropdown]: the search predicate and the forest it hands to [Item]. *)
Definition Dropdown_predicate (search : string) (item : TaxonomyItem) : bool :=
  includes (toLocaleLowerCase (label item)) search.

Definition Dropdown_list (search : string) (flat items : list TaxonomyItem)
  : Completion (list TaxonomyItem) :=
  if truthy_string search
  then filterTreeByPredicate (Dropdown_predicate search) flat
  else Normal items.

(** The user's actions, each bound to one handler of the component. *)
Inductive Event : Type :=
  | Input (value : string)     (* typing in the search box: [onInput] *)
  | CheckboxChange (row : nat) (* clicking the checkbox of the [row]-th item *)
  | RemoveClick (row : nat).   (* clicking × on the [row]-th selected path *)

Section Widget.
Variable items : list TaxonomyItem.
Variable options : TaxonomyOptions.

(** The items an [Item] component can be mounted for: every node of the
    forest given to the dropdown, since each level can be opened. Rows
    are numbered in display order. *)
Definition rendered (search : string) : list TaxonomyItem :=
  match Dropdown_list search (flatten items) items with
  | Normal list => flatten list
  | Throw _ => []
  end.

(** One event. A disabled checkbox fires no [change] event; an enabled
    one fires it with [e.currentTarget.checked] the negation of the
    [checked] it displays. *)
Definition handle (st : TaxonomyState) (ev : Event) : TaxonomyState :=
  match ev with
  | Input value =>
      {| st_selected := st_selected st;
         st_search := toLocaleLowerCase value |}
  | CheckboxChange row =>
      match rendered (st_search st) !! row with
      | Some item =>
          if disabled (st_selected st)
               (optionsWithMaxUsages options (st_selected st)) item
          then st
          else {| st_selected :=
                    setSelected (st_selected st) (path item)
                      (negb (checked (st_selected st) (path item)));
                  st_search := st_search st |}
      | None => st
      end
  | RemoveClick row =>
      match st_selected st !! row with
      | Some path =>
          {| st_selected := setSelected (st_selected st) path false;
             st_search := st_search st |}
      | None => st
      end
  end.

Definition run (events : list Event) (st : TaxonomyState) : TaxonomyState :=
  fold_left handle events st.
End Widget.


(** ** The list of selected paths: [SelectedList] *)

(** [xs.join(sep)] on an array of strings. *)
Fixpoint join (sep : string) (xs : list string) : string :=
  match xs with
  | [] => EmptyString
  | x :: rest =>
      match rest with
      | [] => x
      | _ :: _ => x +:+ sep +:+ join sep rest
      end
  end.

(** The React key of the row of a selected path: [path.join("|")]. *)
Definition SelectedList_key (path : TaxonomyPath) : string :=
  join "|" path.

(** The text of the row:
    [showFullPath ? path.join(pathSeparator) : path[path.length - 1]],
    where [pathSeparator] defaults to [" / "]. For the empty path the
    index is [-1] and the text is [undefined]. *)
Definition SelectedList_text (options : TaxonomyOptionsContextValue)
    (path : TaxonomyPath) : option string :=
  if truthy_opt_bool (showFullPath (ctx_options options))
  then Some (join (default " / "%string (pathSeparator (ctx_options options)))
               path)
  else last path.

(** The rows of the virtualised [Dropdown], which lists the matches flat:
    [search ? flatten.filter(predicate) : items]. *)
Definition Dropdown_list_flat (search : string)
    (flat items : list TaxonomyItem) : list TaxonomyItem :=
  if truthy_string search
  then List.filter (Dropdown_predicate search) flat
  else items.

(** ** Reference definitions, following the specification *)

(** The descendants of a node, the node included, parent first, children
    in their order, a whole subtree before the next sibling. *)
Fixpoint preorder_item (item : TaxonomyItem) : list TaxonomyItem :=
  item :: match children item with
          | Some cs => concat (map preorder_item cs)
          | None => []
          end.

Definition preorder (items : list TaxonomyItem) : list TaxonomyItem :=
  concat (map preorder_item items).

(** The total number of nodes. *)
Fixpoint count_item (item : TaxonomyItem) : nat :=
  S (match children item with
     | Some cs => list_sum (map count_item cs)
     | None => 0
     end).

Definition count_nodes (items : list TaxonomyItem) : nat :=
  list_sum (map count_item items).

(** The nesting level of every node, in pre-order, for a forest whose
    roots sit at level [k]. *)
Fixpoint levels_item (k : Z) (item : TaxonomyItem) : list Z :=
  k :: match children item with
       | Some cs => concat (map (levels_item (k + 1)) cs)
       | None => []
       end.

Definition levels (k : Z) (items : list TaxonomyItem) : list Z :=
  concat (map (levels_item k) items).

(** The data-model invariant on [depth]: the field of a node equals the
    number of its ancestors. *)
Fixpoint depth_ok (k : Z) (item : TaxonomyItem) : bool :=
  bool_decide (depth item = k)
  && match children item with
     | Some cs => forallb (depth_ok (k + 1)) cs
     | None => true
     end.

Definition well_formed (items : list TaxonomyItem) : bool :=
  forallb (depth_ok 0) items.

(** A node is retained by the reconstruction when the predicate holds of
    it or of one of its descendants. *)
Section Reconstruct.
Variable predicate : TaxonomyItem -> bool.

Fixpoint retained (item : TaxonomyItem) : bool :=
  predicate item
  || match children item with
     | Some cs => existsb retained cs
     | None => false
     end.

(** A retained node, with the retained ones among its children in
    their original order, each pruned in turn (the others contribute
    nothing). *)
Fixpoint prune (item : TaxonomyItem) : TaxonomyItem :=
  with_children item
    match children item with
    | Some cs =>
        flat_map (fun child => if retained child then [prune child] else []) cs
    | None => []
    end.

Definition reconstruct (items : list TaxonomyItem) : list TaxonomyItem :=
  map prune (List.filter retained items).
End Reconstruct.

(** A path is a strict descendant of another when it extends it by at
    least one label. *)
Definition strict_descendant (candidate ancestor : TaxonomyPath) : Prop :=
  ∃ suffix, suffix ≠ [] ∧ candidate = ancestor ++ suffix.

(** A path identifies a leaf of the tree when some node without children
    carries it. *)
Definition leaf_path (items : list TaxonomyItem) (p : TaxonomyPath) : Prop :=
  ∃ item, item ∈ preorder items ∧ path item = p ∧ hasChilds item = false.

(** ** The trees of the examples *)

Definition node (l : string) (p : TaxonomyPath) (k : Z)
    (cs : option (list TaxonomyItem)) : TaxonomyItem :=
  {| label := l; path := p; depth := k; children := cs; custom := None |}.

(** The tree [A > [A1, A2 > [A2a]]]. *)
Definition item_A2a : TaxonomyItem :=
  node "A2a" ["A"; "A2"; "A2a"]%string 2 None.
Definition item_A2 : TaxonomyItem :=
  node "A2" ["A"; "A2"]%string 1 (Some [item_A2a]).
Definition item_A1 : TaxonomyItem :=
  node "A1" ["A"; "A1"]%string 1 None.
Definition item_A : TaxonomyItem :=
  node "A" ["A"]%string 0 (Some [item_A1; item_A2]).

(** The predicate that matches exactly one label. *)
Definition label_is (l : string) (item : TaxonomyItem) : bool :=
  String.eqb (label item) l.

(** The tree [animals > [birds]]. *)
Definition item_birds : TaxonomyItem :=
  node "birds" ["animals"; "birds"]%string 1 None.
Definition item_animals : TaxonomyItem :=
  node "animals" ["animals"]%string 0 (Some [item_birds]).

Definition leafsOnly_options : TaxonomyOptions :=
  {| leafsOnly := Some true; showFullPath := None; pathSeparator := None;
     maxUsages := None; placeholder := None |}.

(** The chain [X > [Y > [Z]]]. *)
Definition item_Z : TaxonomyItem :=
  node "Z" ["X"; "Y"; "Z"]%string 2 None.
Definition item_Y : TaxonomyItem :=
  node "Y" ["X"; "Y"]%string 1 (Some [item_Z]).
Definition item_X : TaxonomyItem :=
  node "X" ["X"]%string 0 (Some [item_Y]).

(** ** Loop invariants of [filterTreeByPredicate] *)

(** No child is pending at level [k] or deeper: each of these slots is a
    hole or an empty array. *)
Definition idle_from (k : Z) (cs : gmap Z (list TaxonomyItem)) : Prop :=
  ∀ j, k ≤ j → default [] (cs !! j) = [].

(** The state in which the backward scan enters the subtrees of a sibling
    group at level [k]: the level awaited, if any, lies above the group,
    and nothing is pending at the group's level or below it. *)
Definition enters (k : Z) (st : FilterState) : Prop :=
  -1 ≤ d st < k ∧ idle_from k (childs st).

(** What scanning a sibling group at level [k] does to the state, when
    [kept] are the trees it retains: nothing if there are none; otherwise
    they are put in front of the roots (level 0) or of the children pending
    for the parent, which becomes the level awaited. *)
Definition attached (k : Z) (kept : list TaxonomyItem)
    (st st' : FilterState) : Prop :=
  match kept with
  | [] => st' = st
  | _ :: _ =>
      d st' = k - 1
      ∧ roots st' = (if bool_decide (k = 0) then kept ++ roots st else roots st)
      ∧ (k ≠ 0 →
         childs st' !! (k - 1)
         = Some (kept ++ default [] (childs st !! (k - 1))))
      ∧ (∀ j, j < k - 1 → childs st' !! j = childs st !! j)
      ∧ idle_from k (childs st')
  end.

(** The trees a single node contributes to the reconstruction. *)
Definition kept_of (predicate : TaxonomyItem → bool) (item : TaxonomyItem)
  : list TaxonomyItem :=
  if retained predicate item then [prune predicate item] else [].

(** ** When the backward scan throws *)

(** Whether some child of the node is retained. *)
Definition has_retained_child (predicate : TaxonomyItem → bool)
    (item : TaxonomyItem) : bool :=
  existsb (retained predicate) (default [] (children item)).

(** The effect of one node on the set of slots of [childs] that exist:
    a node with a retained child is closed, which needs the slot of its
    parent's level unless it is a root; a match without retained child
    creates that slot; any other node is skipped. [None] stands for the
    exception. *)
Definition slots_step (predicate : TaxonomyItem → bool)
    (item : TaxonomyItem) (acc : option (gset Z)) : option (gset Z) :=
  match acc with
  | None => None
  | Some slots =>
      if has_retained_child predicate item then
        if bool_decide (depth item = 0 ∨ depth item - 1 ∈ slots)
        then Some slots else None
      else if predicate item then
        Some (if bool_decide (depth item = 0) then slots
              else {[depth item - 1]} ∪ slots)
      else Some slots
  end.

(** The slots that exist after the scan of a flat sequence from its end,
    started with the given slots. *)
Definition slots_after (predicate : TaxonomyItem → bool)
    (flat : list TaxonomyItem) (slots : gset Z) : option (gset Z) :=
  foldr (slots_step predicate) (Some slots) flat.

(** The scan of [flat] from the state [st] ends as [slots_after] says:
    normally, leaving exactly those slots, or with an exception. *)
Definition scan_follows (predicate : TaxonomyItem → bool)
    (flat : list TaxonomyItem) (st : FilterState) : Prop :=
  match slots_after predicate flat (dom (childs st)) with
  | Some slots =>
      ∃ st', forEachC (filterTree_body predicate) (rev flat) st = Normal st'
             ∧ dom (childs st') = slots
  | None =>
      ∃ e, forEachC (filterTree_body predicate) (rev flat) st = Throw e
  end.

(** * Properties *)

(** ** Induction over trees *)

(** [TaxonomyItem] is nested through [option] and [list]; the induction
    hypothesis that is useful covers every child. *)
Section TaxonomyItem_tree_ind.
Variable P : TaxonomyItem → Prop.
Hypothesis leaf_case : ∀ l p k c, P (mkItem l p k None c).
Hypothesis node_case :
  ∀ l p k cs c, Forall P cs → P (mkItem l p k (Some cs) c).

Fixpoint TaxonomyItem_tree_ind (item : TaxonomyItem) : P item :=
  match item with
  | mkItem l p k None c => leaf_case l p k c
  | mkItem l p k (Some cs) c =>
      node_case l p k cs c
        ((fix all (xs : list TaxonomyItem) : Forall P xs :=
            match xs with
            | [] => List.Forall_nil P
            | x :: xs' =>
                List.Forall_cons P x xs' (TaxonomyItem_tree_ind x) (all xs')
            end) cs)
  end.
End TaxonomyItem_tree_ind.

(** ** Flattening *)

Lemma fold_visitItem cs :
  Forall (λ c, ∀ acc, visitItem c acc = acc ++ preorder_item c) cs →
  ∀ acc, fold_left (λ acc child, visitItem child acc) cs acc
         = acc ++ preorder cs.
Proof.
  unfold preorder. induction 1 as [|c cs Hc _ IH]; intros acc; simpl.
  - by rewrite app_nil_r.
  - by rewrite Hc, IH, <- app_assoc.
Qed.

Lemma visitItem_preorder item acc :
  visitItem item acc = acc ++ preorder_item item.
Proof.
  revert acc. induction item as [l p k c|l p k cs c IH]
    using TaxonomyItem_tree_ind; intros acc; simpl.
  - done.
  - rewrite (fold_visitItem cs IH). unfold preorder.
    by rewrite <- app_assoc.
Qed.

Lemma flatten_preorder items : flatten items = preorder items.
Proof.
  unfold flatten. rewrite fold_visitItem; [done|].
  apply Forall_forall. intros c _ acc. apply visitItem_preorder.
Qed.

Lemma length_preorder_item item :
  length (preorder_item item) = count_item item.
Proof.
  induction item as [l p k c|l p k cs c IH] using TaxonomyItem_tree_ind;
    simpl; [done|].
  f_equal. induction IH as [|x xs Hx _ IHxs]; simpl; [done|].
  by rewrite length_app, Hx, IHxs.
Qed.

Lemma length_preorder items : length (preorder items) = count_nodes items.
Proof.
  unfold preorder, count_nodes. induction items as [|x xs IH]; simpl; [done|].
  by rewrite length_app, length_preorder_item, IH.
Qed.

Lemma depth_preorder_item item :
  ∀ k, depth_ok k item = true →
       map depth (preorder_item item) = levels_item k item.
Proof.
  induction item as [l p k0 c|l p k0 cs c IH] using TaxonomyItem_tree_ind;
    intros k Hok; simpl in *; apply andb_prop in Hok as [Hk Hcs];
    apply bool_decide_eq_true in Hk; subst k0; [done|].
  f_equal. induction IH as [|x xs Hx _ IHxs]; simpl in *; [done|].
  apply andb_prop in Hcs as [Hx' Hxs'].
  by rewrite map_app, (Hx _ Hx'), (IHxs Hxs').
Qed.

Lemma depth_preorder k items :
  forallb (depth_ok k) items = true →
  map depth (preorder items) = levels k items.
Proof.
  unfold preorder, levels. induction items as [|x xs IH]; simpl; [done|].
  intros [Hx Hxs]%andb_prop.
  by rewrite map_app, (depth_preorder_item _ _ Hx), (IH Hxs).
Qed.

(** C5. [flatten] lists the nodes of the tree in pre-order (each parent
    before its children, children in their original order, a whole subtree
    before the next sibling), one entry per node, so its length is the
    number of nodes; the entries are the nodes themselves, and in a tree
    that satisfies the data-model invariant the [depth] field of each entry
    is the nesting level of that node in the source tree. *)
Theorem flatten_correct (items : list TaxonomyItem) :
  length (flatten items) = count_nodes items
  ∧ flatten items = preorder items
  ∧ (well_formed items = true → map depth (flatten items) = levels 0 items).
Proof.
  rewrite flatten_preorder. split_and!.
  - apply length_preorder.
  - done.
  - apply depth_preorder.
Qed.

Lemma flatten_correct_witness :
  well_formed [item_A] = true
  ∧ map depth (flatten [item_A]) = levels 0 [item_A].
Proof.
  split; [reflexivity|].
  apply (proj2 (proj2 (flatten_correct [item_A]))). reflexivity.
Defined.

(** ** Path utilities *)

Lemma isArraysEqual_spec (a b : TaxonomyPath) :
  isArraysEqual a b = true ↔ a = b.
Proof.
  unfold isArraysEqual. revert b.
  induction a as [|x a IH]; intros [|y b]; simpl; try (split; done).
  specialize (IH b). rewrite andb_true_iff in IH |- *.
  rewrite andb_true_iff, String.eqb_eq. split.
  - intros (Hlen & -> & Hall). f_equal. apply IH. done.
  - intros [= -> ->]. destruct IH as [_ IH].
    destruct (IH eq_refl) as [Hlen Hall]. done.
Qed.

Lemma isArraysEqual_refl (a : TaxonomyPath) : isArraysEqual a a = true.
Proof. by apply isArraysEqual_spec. Qed.

Lemma every_i_spec {A : Type} (f : A → nat → bool) (xs : list A) :
  every_i f xs = true ↔ ∀ i x, xs !! i = Some x → f x i = true.
Proof.
  unfold every_i. revert f. induction xs as [|y xs IH]; intros f; simpl.
  - split; [intros _ i x Hi; done | done].
  - unfold id at 1. rewrite andb_true_iff.
    change (imap ((λ i x, f x i) ∘ S) xs)
      with (imap (λ i x, (λ x i, f x (S i)) x i) xs).
    rewrite (IH (λ x i, f x (S i))). split.
    + intros [H0 HS] [|i] x Hi; simpl in Hi; [by inversion Hi; subst|].
      by apply HS.
    + intros H. split; [by apply (H 0%nat)|].
      intros i x Hi. by apply (H (S i)).
Qed.

Lemma lookup_extends (parent item : TaxonomyPath) :
  (∀ i n, parent !! i = Some n → item !! i = Some n) →
  ∃ suffix, item = parent ++ suffix.
Proof.
  revert item. induction parent as [|n parent IH]; intros item H.
  - by exists item.
  - destruct item as [|m item]; [by specialize (H 0%nat n eq_refl)|].
    specialize (H 0%nat n eq_refl) as H0. simpl in H0. inversion H0; subst m.
    destruct (IH item) as [suffix ->].
    + intros i x Hi. by apply (H (S i)).
    + by exists suffix.
Qed.

(** [isSubArray] decides strict descent. *)
Lemma isSubArray_spec (item parent : TaxonomyPath) :
  isSubArray item parent = true ↔ strict_descendant item parent.
Proof.
  unfold isSubArray, strict_descendant. split.
  - destruct (length item <=? length parent)%nat eqn:Hlen; [done|].
    apply Nat.leb_gt in Hlen. rewrite every_i_spec. intros H.
    destruct (lookup_extends parent item) as [suffix ->].
    { intros i n Hi. specialize (H i n Hi).
      by apply bool_decide_eq_true in H. }
    exists suffix. split; [|done]. intros ->.
    rewrite app_nil_r in Hlen. lia.
  - intros (suffix & Hne & ->).
    destruct (length (parent ++ suffix) <=? length parent)%nat eqn:Hlen.
    + apply Nat.leb_le in Hlen. rewrite length_app in Hlen.
      destruct suffix; [done|]. simpl in Hlen. lia.
    + apply every_i_spec. intros i n Hi. apply bool_decide_eq_true.
      by apply lookup_app_l_Some.
Qed.

(** ** Selection model *)

Lemma checked_spec (selected : list TaxonomyPath) (p : TaxonomyPath) :
  checked selected p = true ↔ p ∈ selected.
Proof.
  unfold checked, some. rewrite existsb_exists, list_elem_of_In. split.
  - intros (c & Hin & Heq). apply isArraysEqual_spec in Heq. by subst.
  - intros Hin. exists p. split; [done|]. apply isArraysEqual_refl.
Qed.

Lemma isChildSelected_spec (selected : list TaxonomyPath) (p : TaxonomyPath) :
  isChildSelected selected p = true
  ↔ ∃ c, c ∈ selected ∧ strict_descendant c p.
Proof.
  unfold isChildSelected, some. rewrite existsb_exists.
  setoid_rewrite list_elem_of_In. setoid_rewrite isSubArray_spec. done.
Qed.

Lemma elem_of_setSelected_off (selected : list TaxonomyPath) p q :
  q ∈ setSelected selected p false ↔ q ∈ selected ∧ q ≠ p.
Proof.
  unfold setSelected. rewrite !list_elem_of_In, filter_In, negb_true_iff.
  split; intros [Hin Hne]; (split; [done|]).
  - intros ->. by rewrite isArraysEqual_refl in Hne.
  - destruct (isArraysEqual q p) eqn:Heq; [|done].
    by apply isArraysEqual_spec in Heq.
Qed.

Lemma NoDup_setSelected_off (selected : list TaxonomyPath) p :
  NoDup selected → NoDup (setSelected selected p false).
Proof.
  intros Hnd. unfold setSelected.
  apply NoDup_ListNoDup, List.NoDup_filter. by apply NoDup_ListNoDup.
Qed.

Lemma NoDup_setSelected_on (selected : list TaxonomyPath) p :
  NoDup selected → checked selected p = false →
  NoDup (setSelected selected p true).
Proof.
  intros Hnd Hc. unfold setSelected. apply NoDup_app. split_and!; [done| |].
  - intros q Hq [->|[]%elem_of_nil]%elem_of_cons.
    apply checked_spec in Hq. congruence.
  - apply NoDup_singleton.
Qed.

Lemma NoDup_handle items options st ev :
  NoDup (st_selected st) → NoDup (st_selected (handle items options st ev)).
Proof.
  intros Hnd. destruct ev as [value|row|row]; simpl; [done| |].
  - destruct (rendered items (st_search st) !! row) as [item|]; [|done].
    destruct (disabled _ _ item); [done|]. simpl.
    destruct (checked (st_selected st) (path item)) eqn:Hc; simpl.
    + by apply NoDup_setSelected_off.
    + by apply NoDup_setSelected_on.
  - destruct (st_selected st !! row) as [p|]; [|done]. simpl.
    by apply NoDup_setSelected_off.
Qed.

Lemma NoDup_run items options events st :
  NoDup (st_selected st) →
  NoDup (st_selected (run items options events st)).
Proof.
  unfold run. revert st. induction events as [|ev events IH]; intros st Hnd.
  - done.
  - simpl. apply IH. by apply NoDup_handle.
Qed.

(** C4, as the code has it. Toggling a path on twice gives a list with the
    same set of elements as toggling it on once, but not the same list:
    [setSelected] appends without looking, so the path is held once more.
    A selection without path-equal elements stays so under toggling off,
    under toggling on a path that is not checked, and hence after any
    sequence of events of the widget, whose checkboxes always toggle to the
    opposite of the state they display. *)
Theorem setSelected_on_twice (selected : list TaxonomyPath) (p : TaxonomyPath) :
  (∀ q, q ∈ setSelected (setSelected selected p true) p true
        ↔ q ∈ setSelected selected p true)
  ∧ setSelected (setSelected selected p true) p true
    = setSelected selected p true ++ [p]
  ∧ (NoDup selected →
     NoDup (setSelected selected p false)
     ∧ (checked selected p = false → NoDup (setSelected selected p true))
     ∧ (∀ items options events search,
          NoDup (st_selected
                   (run items options events
                      {| st_selected := selected; st_search := search |})))).
Proof.
  split_and!.
  - intros q. unfold setSelected.
    rewrite !elem_of_app, !list_elem_of_singleton. tauto.
  - done.
  - intros Hnd. split_and!.
    + by apply NoDup_setSelected_off.
    + by apply NoDup_setSelected_on.
    + intros items options events search. by apply NoDup_run.
Qed.

Lemma setSelected_on_twice_witness :
  NoDup [["A"]%string]
  ∧ NoDup (setSelected [["A"]%string] ["B"]%string true).
Proof.
  assert (Hnd : NoDup [["A"]%string]) by apply NoDup_singleton.
  split; [exact Hnd|].
  exact (proj1 (proj2 (proj2 (proj2
           (setSelected_on_twice [["A"]%string] ["B"]%string)) Hnd))
           eq_refl).
Defined.

(** C4, as stated, fails: starting from the empty selection, toggling
    [["A"]] on twice leaves two path-equal elements, one more than toggling
    it on once. *)
Lemma setSelected_on_twice_duplicates :
  NoDup ([] : list TaxonomyPath)
  ∧ setSelected (setSelected [] ["A"]%string true) ["A"]%string true
    = [["A"]%string; ["A"]%string]
  ∧ setSelected [] ["A"]%string true = [["A"]%string]
  ∧ ¬ NoDup (setSelected (setSelected [] ["A"]%string true) ["A"]%string true).
Proof.
  split_and!; [apply NoDup_nil_2|done|done|].
  simpl. intros [Hnotin _]%NoDup_cons. apply Hnotin. by left.
Qed.

(** C6. Toggling a path on and then off gives the original selection with
    every element path-equal to it removed, whether or not it was selected
    before: the very list that toggling it off directly gives, whose
    elements are those of the original other than the path. *)
Theorem setSelected_on_off (selected : list TaxonomyPath) (p : TaxonomyPath) :
  setSelected (setSelected selected p true) p false
  = List.filter (λ current, negb (isArraysEqual current p)) selected
  ∧ ∀ q, q ∈ setSelected (setSelected selected p true) p false
         ↔ q ∈ selected ∧ q ≠ p.
Proof.
  assert (Heq : setSelected (setSelected selected p true) p false
                = setSelected selected p false).
  { unfold setSelected. rewrite List.filter_app. simpl.
    rewrite isArraysEqual_refl. simpl. by rewrite app_nil_r. }
  split; [by rewrite Heq|].
  intros q. rewrite Heq. apply elem_of_setSelected_off.
Qed.

(** C7. [checked] holds exactly when the path is an element of the
    selection, the indeterminate flag exactly when the path is not checked
    and some element of the selection is a strict descendant of it; the two
    are never both true, and a checked node is never indeterminate. *)
Theorem checked_indeterminate_exclusive
    (selected : list TaxonomyPath) (p : TaxonomyPath) :
  (checked selected p = true ↔ ∃ c, c ∈ selected ∧ c = p)
  ∧ (setIndeterminate selected p = true
     ↔ checked selected p = false
       ∧ ∃ c, c ∈ selected ∧ strict_descendant c p)
  ∧ ¬ (checked selected p = true ∧ setIndeterminate selected p = true)
  ∧ (checked selected p && setIndeterminate selected p = false).
Proof.
  split_and!.
  - rewrite checked_spec. split; [intros H; by exists p|].
    by intros (c & Hc & ->).
  - unfold setIndeterminate. rewrite <- isChildSelected_spec.
    destruct (checked selected p); split; try done; by intros [].
  - unfold setIndeterminate. by destruct (checked selected p); intros [].
  - unfold setIndeterminate. by destruct (checked selected p).
Qed.

(** ** Options *)

(** C8. [maxUsagesReached] is always set, and it is true exactly when
    [maxUsages] is supplied, is not zero, and is at most the number of
    selected paths; the caller's options are carried over unchanged. With
    [maxUsages = 2] it is true for a selection of size 2 and false for one
    of size 1. *)
Theorem maxUsagesReached_spec
    (options : TaxonomyOptions) (selected : list TaxonomyPath) :
  (∃ b, maxUsagesReached (optionsWithMaxUsages options selected) = Some b
        ∧ b = (if truthy_opt_number (maxUsages options)
               then bool_decide (default 0 (maxUsages options)
                                 ≤ Z.of_nat (length selected))
               else false))
  ∧ (maxUsagesReached (optionsWithMaxUsages options selected) = Some true
     ↔ ∃ m, maxUsages options = Some m ∧ m ≠ 0
            ∧ m ≤ Z.of_nat (length selected))
  ∧ ctx_options (optionsWithMaxUsages options selected) = options
  ∧ (maxUsages options = Some 2 → length selected = 2%nat →
     maxUsagesReached (optionsWithMaxUsages options selected) = Some true)
  ∧ (maxUsages options = Some 2 → length selected = 1%nat →
     maxUsagesReached (optionsWithMaxUsages options selected) = Some false).
Proof.
  unfold optionsWithMaxUsages, truthy_opt_number, truthy_number. simpl.
  split_and!.
  - eexists. split; [done|]. destruct (maxUsages options) as [m|]; [|done].
    simpl. destruct (m =? 0); simpl; [done|].
    apply eq_true_iff_eq. rewrite bool_decide_eq_true. rewrite Z.geb_le. done.
  - destruct (maxUsages options) as [m|].
    + destruct (m =? 0) eqn:Hm; simpl.
      * apply Z.eqb_eq in Hm. split; [done|]. intros (m' & [= <-] & ? & _). done.
      * apply Z.eqb_neq in Hm. split.
        -- intros [= H]. apply Z.geb_le in H. by exists m.
        -- intros (m' & [= <-] & _ & Hle). f_equal. by apply Z.geb_le.
    + split; [done|]. by intros (m & ? & _).
  - done.
  - intros -> ->. done.
  - intros -> ->. done.
Qed.

(** C10. A cap of zero is never reached: with [maxUsages = 0] the flag is
    false whatever the selection, so [limitReached] disables no item. *)
Theorem maxUsages_zero_never_reached
    (options : TaxonomyOptions) (selected : list TaxonomyPath) :
  maxUsages options = Some 0 →
  maxUsagesReached (optionsWithMaxUsages options selected) = Some false
  ∧ ∀ item,
      limitReached selected (optionsWithMaxUsages options selected) item
      = false.
Proof.
  intros H0. unfold limitReached, optionsWithMaxUsages. rewrite H0. done.
Qed.

Lemma maxUsages_zero_never_reached_witness :
  maxUsagesReached
    (optionsWithMaxUsages
       {| leafsOnly := None; showFullPath := None; pathSeparator := None;
          maxUsages := Some 0; placeholder := None |}
       [["A"]%string; ["B"]%string]) = Some false.
Proof.
  exact (proj1 (maxUsages_zero_never_reached
                  {| leafsOnly := None; showFullPath := None;
                     pathSeparator := None; maxUsages := Some 0;
                     placeholder := None |}
                  [["A"]%string; ["B"]%string] eq_refl)).
Defined.

(** ** Filtered-tree reconstruction *)

(** C2. On the pre-order sequence of the tree [A > [A1, A2 > [A2a]]] with
    the predicate matching the label [A2a], [filterTreeByPredicate] does
    not return the forest [A > [A2 > [A2a]]] that the reconstruction
    calls for: closing [A2] it reads [childs[0]], which is still a hole,
    and throws. *)
Theorem filterTree_A2a_throws :
  flatten [item_A] = [item_A; item_A1; item_A2; item_A2a]
  ∧ filterTreeByPredicate (label_is "A2a") (flatten [item_A])
    = Throw (TypeError_undefined_slot 0)
  ∧ reconstruct (label_is "A2a") [item_A]
    = [with_children item_A
         [with_children item_A2 [with_children item_A2a []]]].
Proof. split_and!; vm_compute; reflexivity. Qed.

(** C1. On the chain [X > [Y > [Z]]] with the predicate matching [Z],
    the three nodes are to be retained, yet [filterTreeByPredicate]
    returns no forest at all. *)
Theorem filterTree_chain_no_forest :
  well_formed [item_X] = true
  ∧ reconstruct (label_is "Z") [item_X]
    = [with_children item_X
         [with_children item_Y [with_children item_Z []]]]
  ∧ filterTreeByPredicate (label_is "Z") (flatten [item_X])
    = Throw (TypeError_undefined_slot 0)
  ∧ ∀ forest,
      filterTreeByPredicate (label_is "Z") (flatten [item_X]) ≠ Normal forest.
Proof.
  assert (H : filterTreeByPredicate (label_is "Z") (flatten [item_X])
              = Throw (TypeError_undefined_slot 0))
    by (vm_compute; reflexivity).
  split_and!; [reflexivity|reflexivity|exact H|].
  intros forest. rewrite H. discriminate.
Qed.

Lemma forEachC_app {S A : Type} (body : S → A → Completion S) xs ys st :
  forEachC body (xs ++ ys) st
  = (st' ← forEachC body xs st; forEachC body ys st').
Proof.
  revert st. induction xs as [|x xs IH]; intros st; simpl; [done|].
  destruct (body st x) as [st1|e]; simpl; [apply IH|done].
Qed.

(** C3. Whatever precedes them, a flat sequence that ends with a node at
    depth 1 or more followed by a child of it on which the predicate holds
    makes [filterTreeByPredicate] throw: when the parent is closed, the
    slot [childs[d - 1]] that the boundary branch reads is a hole. *)
Theorem filterTree_throws_on_deep_match
    (predicate : TaxonomyItem → bool) (before : list TaxonomyItem)
    (parent child : TaxonomyItem) :
  1 ≤ depth parent →
  depth child = depth parent + 1 →
  predicate child = true →
  filterTreeByPredicate predicate (before ++ [parent; child])
  = Throw (TypeError_undefined_slot (depth parent - 1)).
Proof.
  intros Hdeep Hchild Hmatch.
  set (adjusted := with_children child []).
  set (st1 := {| roots := [];
                 childs := <[depth child - 1 := [adjusted]]> ∅;
                 d := depth child - 1 |}).
  assert (H1 : filterTree_body predicate
                 {| roots := []; childs := ∅; d := -1 |} child = Normal st1).
  { unfold filterTree_body. cbn [d childs roots].
    rewrite bool_decide_eq_false_2 by lia. rewrite Hmatch.
    rewrite bool_decide_eq_false_2 by lia. by rewrite lookup_empty. }
  assert (H2 : filterTree_body predicate st1 parent
               = Throw (TypeError_undefined_slot (depth parent - 1))).
  { unfold filterTree_body, st1. cbn [d childs roots].
    rewrite bool_decide_eq_true_2 by lia.
    replace (truthy_number (depth child - 1)) with true
      by (unfold truthy_number; symmetry; apply negb_true_iff, Z.eqb_neq; lia).
    rewrite lookup_insert_ne by lia. rewrite lookup_insert_ne by lia.
    rewrite lookup_empty. do 2 f_equal. lia. }
  unfold filterTreeByPredicate. rewrite rev_app_distr. simpl rev. simpl app.
  cbn [forEachC]. rewrite H1. cbn [mbind Completion_bind]. rewrite H2. done.
Qed.

Lemma filterTree_throws_on_deep_match_witness :
  filterTreeByPredicate (label_is "A2a") ([item_A; item_A1] ++ [item_A2; item_A2a])
  = Throw (TypeError_undefined_slot (depth item_A2 - 1)).
Proof.
  apply (filterTree_throws_on_deep_match (label_is "A2a") [item_A; item_A1]
           item_A2 item_A2a); [simpl; lia|reflexivity|reflexivity].
Defined.

(** ** Leaf-only selection *)

(** C9. With [leafsOnly] on, the tree [animals > [birds]] and the search
    [anim], the dropdown shows a copy of [animals] without children; its
    checkbox is enabled although the node has children, and clicking it
    puts the path of a node that is not a leaf in the selection. *)
Theorem leafsOnly_search_selects_parent :
  hasChilds item_animals = true
  ∧ disabled [] (optionsWithMaxUsages leafsOnly_options []) item_animals = true
  ∧ rendered [item_animals] "anim" = [with_children item_animals []]
  ∧ disabled [] (optionsWithMaxUsages leafsOnly_options [])
      (with_children item_animals []) = false
  ∧ st_selected
      (run [item_animals] leafsOnly_options [Input "anim"; CheckboxChange 0]
         {| st_selected := []; st_search := "" |})
    = [["animals"]%string]
  ∧ ¬ leaf_path [item_animals] ["animals"]%string.
Proof.
  split_and!; try (vm_compute; reflexivity).
  intros (item & Hin & Hpath & Hleaf).
  change (preorder [item_animals]) with [item_animals; item_birds] in Hin.
  apply elem_of_cons in Hin as [->|Hin]; [discriminate Hleaf|].
  apply list_elem_of_singleton in Hin as ->. discriminate Hpath.
Qed.






(** ** Partial correctness of the backward scan *)

Section Scan.
Variable predicate : TaxonomyItem → bool.

Lemma prune_children cs :
  flat_map (λ child, if retained predicate child
                     then [prune predicate child] else []) cs
  = reconstruct predicate cs.
Proof.
  unfold reconstruct. induction cs as [|c cs IH]; simpl; [done|].
  destruct (retained predicate c); simpl; by rewrite IH.
Qed.

Lemma prune_unfold item :
  prune predicate item
  = with_children item (reconstruct predicate (default [] (children item))).
Proof.
  destruct item as [l p k [cs|] c]; simpl; [|done].
  by rewrite prune_children.
Qed.

Lemma retained_unfold item :
  retained predicate item
  = predicate item
    || match reconstruct predicate (default [] (children item)) with
       | [] => false
       | _ :: _ => true
       end.
Proof.
  destruct item as [l p k [cs|] c]; simpl; [|done]. f_equal.
  unfold reconstruct. induction cs as [|x cs IH]; simpl; [done|].
  destruct (retained predicate x); simpl; [done|apply IH].
Qed.

Lemma reconstruct_cons c cs :
  reconstruct predicate (c :: cs)
  = kept_of predicate c ++ reconstruct predicate cs.
Proof.
  unfold reconstruct, kept_of. simpl. by destruct (retained predicate c).
Qed.

Lemma rev_preorder_item item :
  rev (preorder_item item)
  = rev (preorder (default [] (children item))) ++ [item].
Proof. by destruct item as [l p k [cs|] c]. Qed.

Lemma rev_preorder_cons c cs :
  rev (preorder (c :: cs)) = rev (preorder cs) ++ rev (preorder_item c).
Proof. unfold preorder. simpl. by rewrite rev_app_distr. Qed.

(** The five ways through the loop body. *)

Lemma body_skip st item :
  depth item ≠ d st → predicate item = false →
  filterTree_body predicate st item = Normal st.
Proof.
  intros Hd Hp. unfold filterTree_body.
  by rewrite bool_decide_eq_false_2, Hp by done.
Qed.

Lemma body_match_root st item :
  depth item ≠ d st → predicate item = true → depth item = 0 →
  filterTree_body predicate st item
  = Normal {| roots := with_children item [] :: roots st;
              childs := childs st; d := d st |}.
Proof.
  intros Hd Hp H0. unfold filterTree_body.
  by rewrite bool_decide_eq_false_2, Hp, bool_decide_eq_true_2 by done.
Qed.

Lemma body_match_child st item :
  depth item ≠ d st → predicate item = true → depth item ≠ 0 →
  filterTree_body predicate st item
  = Normal {| roots := roots st;
              childs := <[depth item - 1 :=
                            with_children item []
                            :: default [] (childs st !! (depth item - 1))]>
                          (childs st);
              d := depth item - 1 |}.
Proof.
  intros Hd Hp H0. unfold filterTree_body.
  by rewrite bool_decide_eq_false_2, Hp, bool_decide_eq_false_2 by done.
Qed.

Lemma body_close_root st item :
  depth item = d st → d st = 0 →
  filterTree_body predicate st item
  = Normal {| roots := with_children item (default [] (childs st !! 0))
                       :: roots st;
              childs := <[0 := []]> (childs st); d := -1 |}.
Proof.
  intros Hd H0. unfold filterTree_body.
  rewrite bool_decide_eq_true_2 by done. by rewrite H0.
Qed.

Lemma body_close_child st item :
  depth item = d st → d st ≠ 0 →
  filterTree_body predicate st item
  = match childs st !! (d st - 1) with
    | Some siblings =>
        Normal {| roots := roots st;
                  childs := <[d st - 1 :=
                                with_children item
                                  (default [] (childs st !! d st))
                                :: siblings]>
                              (<[d st := []]> (childs st));
                  d := d st - 1 |}
    | None => Throw (TypeError_undefined_slot (d st - 1))
    end.
Proof.
  intros Hd H0. unfold filterTree_body.
  rewrite bool_decide_eq_true_2 by done.
  replace (truthy_number (d st)) with true
    by (unfold truthy_number; symmetry; by apply negb_true_iff, Z.eqb_neq).
  by rewrite lookup_insert_ne by lia.
Qed.

Lemma enters_deeper k st : enters k st → enters (k + 1) st.
Proof.
  intros [Hd Hidle]. split; [lia|]. intros j Hj. apply Hidle. lia.
Qed.

Lemma attached_enters k kept st st' :
  0 ≤ k → enters k st → attached k kept st st' → enters k st'.
Proof.
  intros Hk Hin Hatt. destruct kept as [|t kept]; simpl in Hatt; [by subst|].
  destruct Hatt as (Hd & _ & _ & _ & Hidle). split; [lia|done].
Qed.

(** Scanning a later sibling group and then an earlier one attaches the
    trees of both, the earlier ones in front. *)
Lemma attached_app k kept1 kept2 st st1 st2 :
  attached k kept2 st st1 → attached k kept1 st1 st2 →
  attached k (kept1 ++ kept2) st st2.
Proof.
  intros H2 H1. destruct kept2 as [|t2 kept2]; simpl in H2.
  { subst st1. by rewrite app_nil_r. }
  destruct kept1 as [|t1 kept1]; simpl in H1; [by subst st2|].
  destruct H2 as (Hd2 & Hr2 & Hc2 & Hf2 & Hi2).
  destruct H1 as (Hd1 & Hr1 & Hc1 & Hf1 & Hi1).
  simpl. split_and!; [done| | | |done].
  - rewrite Hr1, Hr2. case_bool_decide; [|done]. by rewrite <- app_assoc.
  - intros Hk. rewrite (Hc1 Hk), (Hc2 Hk). simpl. by rewrite <- app_assoc.
  - intros j Hj. by rewrite Hf1, Hf2.
Qed.
Lemma forEachC_singleton {S A : Type} (body : S → A → Completion S) x st :
  forEachC body [x] st = body st x.
Proof. simpl. by destruct (body st x). Qed.

Lemma scan_forest cs :
  Forall (λ c, ∀ k st st',
            0 ≤ k → depth_ok k c = true → enters k st →
            forEachC (filterTree_body predicate) (rev (preorder_item c)) st
            = Normal st' →
            attached k (kept_of predicate c) st st') cs →
  ∀ k st st',
    0 ≤ k → forallb (depth_ok k) cs = true → enters k st →
    forEachC (filterTree_body predicate) (rev (preorder cs)) st = Normal st' →
    attached k (reconstruct predicate cs) st st'.
Proof.
  induction 1 as [|c cs Hc _ IH]; intros k st st' Hk Hok Hin Hrun.
  - simpl in Hrun. by inversion Hrun.
  - rewrite rev_preorder_cons, forEachC_app in Hrun.
    destruct (forEachC _ (rev (preorder cs)) st) as [st1|e] eqn:H1;
      [|discriminate Hrun].
    simpl in Hrun, Hok. apply andb_prop in Hok as [Hokc Hokcs].
    rewrite reconstruct_cons.
    assert (Hatt : attached k (reconstruct predicate cs) st st1)
      by by apply IH.
    apply (attached_app k _ _ st st1 st' Hatt).
    apply Hc; [done..| |done].
    by apply (attached_enters k (reconstruct predicate cs) st).
Qed.

Lemma scan_node item :
  (∀ k st st',
     0 ≤ k → forallb (depth_ok k) (default [] (children item)) = true →
     enters k st →
     forEachC (filterTree_body predicate)
       (rev (preorder (default [] (children item)))) st = Normal st' →
     attached k (reconstruct predicate (default [] (children item))) st st') →
  ∀ k st st',
    0 ≤ k → depth_ok k item = true → enters k st →
    forEachC (filterTree_body predicate) (rev (preorder_item item)) st
    = Normal st' →
    attached k (kept_of predicate item) st st'.
Proof.
  intros Hforest k st st' Hk Hok Hin Hrun.
  rewrite rev_preorder_item, forEachC_app in Hrun.
  destruct (forEachC _ (rev (preorder _)) st) as [st1|e] eqn:H1;
    [|discriminate Hrun].
  cbn [mbind Completion_bind] in Hrun. rewrite forEachC_singleton in Hrun.
  assert (Hdepth : depth item = k ∧
            forallb (depth_ok (k + 1)) (default [] (children item)) = true).
  { destruct item as [l p k0 [cs|] c]; simpl in Hok |- *;
      apply andb_prop in Hok as [Hd Hcs];
      apply bool_decide_eq_true in Hd; done. }
  destruct Hdepth as [Hdepth Hcs].
  assert (Hatt := Hforest (k + 1) st st1 ltac:(lia) Hcs
                    (enters_deeper _ _ Hin) H1).
  destruct Hin as [Hd Hidle].
  unfold kept_of. rewrite retained_unfold, prune_unfold.
  destruct (reconstruct predicate (default [] (children item)))
    as [|t kept] eqn:Hrec.
  - simpl in Hatt. subst st1. rewrite orb_false_r.
    destruct (predicate item) eqn:Hp.
    + destruct (decide (k = 0)) as [->|Hk0].
      * rewrite body_match_root in Hrun by (done || lia).
        inversion Hrun; subst st'. simpl. split_and!; [lia|done|done|done|done].
      * rewrite body_match_child in Hrun by (done || lia).
        inversion Hrun; subst st'. simpl. rewrite Hdepth.
        split_and!; [done| | | |].
        -- by rewrite bool_decide_eq_false_2.
        -- intros _. by rewrite lookup_insert_eq.
        -- intros j Hj. by rewrite lookup_insert_ne by lia.
        -- intros j Hj. rewrite lookup_insert_ne by lia. by apply Hidle.
    + rewrite body_skip in Hrun by (done || lia). by inversion Hrun.
  - simpl in Hatt. destruct Hatt as (Hd1 & Hr1 & Hc1 & Hf1 & Hi1).
    rewrite orb_true_r.
    replace (k + 1 - 1) with k in * by lia.
    rewrite bool_decide_eq_false_2 in Hr1 by lia.
    specialize (Hc1 ltac:(lia)). rewrite (Hidle k), app_nil_r in Hc1 by lia.
    destruct (decide (k = 0)) as [->|Hk0].
    + rewrite body_close_root in Hrun by congruence.
      inversion Hrun; subst st'. simpl. rewrite Hc1, Hr1. simpl.
      split_and!; [done|done|done| |].
      * intros j Hj. rewrite lookup_insert_ne by lia. apply Hf1. lia.
      * intros j Hj. destruct (decide (j = 0)) as [->|Hj0].
        -- by rewrite lookup_insert_eq.
        -- rewrite lookup_insert_ne by done. apply Hi1. lia.
    + rewrite body_close_child in Hrun by congruence.
      rewrite Hd1 in Hrun.
      destruct (childs st1 !! (k - 1)) as [siblings|] eqn:Hs;
        [|discriminate Hrun].
      inversion Hrun; subst st'. simpl. rewrite Hc1, Hr1. simpl.
      split_and!; [done| | | |].
      * by rewrite bool_decide_eq_false_2.
      * intros _. rewrite lookup_insert_eq.
        by rewrite <- (Hf1 (k - 1)), Hs by lia.
      * intros j Hj. rewrite !lookup_insert_ne by lia. apply Hf1. lia.
      * intros j Hj. rewrite lookup_insert_ne by lia.
        destruct (decide (j = k)) as [->|Hjk].
        -- by rewrite lookup_insert_eq.
        -- rewrite lookup_insert_ne by done. apply Hi1. lia.
Qed.

Lemma scan_item item :
  ∀ k st st',
    0 ≤ k → depth_ok k item = true → enters k st →
    forEachC (filterTree_body predicate) (rev (preorder_item item)) st
    = Normal st' →
    attached k (kept_of predicate item) st st'.
Proof.
  induction item as [l p k0 c|l p k0 cs c IH] using TaxonomyItem_tree_ind;
    apply scan_node; simpl.
  - apply (scan_forest []). constructor.
  - by apply scan_forest.
Qed.

(** What the scan returns, when it returns, is the reconstruction. *)
Lemma scan_returns_reconstruction (items forest : list TaxonomyItem) :
  well_formed items = true →
  filterTreeByPredicate predicate (flatten items) = Normal forest →
  forest = reconstruct predicate items.
Proof.
  intros Hwf Hrun. unfold filterTreeByPredicate in Hrun.
  rewrite flatten_preorder in Hrun.
  destruct (forEachC _ (rev (preorder items)) _) as [st|e] eqn:Hscan;
    [|discriminate Hrun].
  cbn in Hrun. inversion Hrun; subst forest.
  assert (Hatt : attached 0 (reconstruct predicate items)
                   {| roots := []; childs := ∅; d := -1 |} st).
  { apply scan_forest; [|done|done| |done].
    - apply Forall_forall. intros c _. apply scan_item.
    - split; [simpl; lia|]. intros j _. simpl. by rewrite lookup_empty. }
  destruct (reconstruct predicate items) as [|t kept]; simpl in Hatt.
  - by subst st.
  - destruct Hatt as (_ & Hr & _). rewrite Hr. simpl. by rewrite app_nil_r.
Qed.
End Scan.

(** ** Totality when the matches are shallow *)

Lemma scan_shallow predicate (xs : list TaxonomyItem) :
  Forall (λ item, 0 ≤ depth item
                  ∧ (predicate item = true → depth item ≤ 1)) xs →
  ∀ st, d st ≤ 0 →
    ∃ st', forEachC (filterTree_body predicate) xs st = Normal st'.
Proof.
  induction 1 as [|item xs [Hlow Hmatch] _ IH]; intros st Hd; simpl.
  - by exists st.
  - assert (Hstep : ∃ st1, filterTree_body predicate st item = Normal st1
                           ∧ d st1 ≤ 0).
    { destruct (decide (depth item = d st)) as [Heq|Hne].
      - rewrite body_close_root by lia. eexists. split; [done|]. simpl. lia.
      - destruct (predicate item) eqn:Hp.
        + specialize (Hmatch eq_refl).
          destruct (decide (depth item = 0)) as [H0|H0].
          * rewrite body_match_root by done. eexists. split; [done|]. done.
          * rewrite body_match_child by done. eexists. split; [done|].
            simpl. lia.
        + rewrite body_skip by done. by exists st. }
    destruct Hstep as (st1 & -> & Hd1). simpl. by apply IH.
Qed.

Lemma levels_item_ge item : ∀ k z, z ∈ levels_item k item → k ≤ z.
Proof.
  induction item as [l p k0 c|l p k0 cs c IH] using TaxonomyItem_tree_ind;
    intros k z; simpl.
  - intros ->%list_elem_of_singleton. lia.
  - intros [->|Hin]%elem_of_cons; [lia|].
    induction IH as [|x xs Hx _ IHxs]; simpl in Hin.
    + by apply elem_of_nil in Hin.
    + apply elem_of_app in Hin as [Hin|Hin]; [|by apply IHxs].
      apply Hx in Hin. lia.
Qed.

Lemma levels_ge (cs : list TaxonomyItem) k z : z ∈ levels k cs → k ≤ z.
Proof.
  unfold levels. induction cs as [|c cs IH]; simpl.
  - by intros ?%elem_of_nil.
  - intros [?|?]%elem_of_app; [by eapply levels_item_ge|by apply IH].
Qed.

(** When the predicate holds of no node below level 1,
    [filterTreeByPredicate] returns, and what it returns is the
    reconstruction. *)
Theorem filterTree_shallow_total
    (predicate : TaxonomyItem → bool) (items : list TaxonomyItem) :
  well_formed items = true →
  Forall (λ item, predicate item = true → depth item ≤ 1) (flatten items) →
  filterTreeByPredicate predicate (flatten items)
  = Normal (reconstruct predicate items).
Proof.
  intros Hwf Hshallow.
  assert (Hlevels : Forall (λ item, 0 ≤ depth item
                              ∧ (predicate item = true → depth item ≤ 1))
                      (rev (flatten items))).
  { apply Forall_rev, Forall_forall. intros item Hin. split.
    - apply (levels_ge items). rewrite <- (depth_preorder 0 items Hwf).
      rewrite <- flatten_preorder. by apply list_elem_of_fmap_2.
    - rewrite Forall_forall in Hshallow. by apply Hshallow. }
  destruct (scan_shallow predicate _ Hlevels
              {| roots := []; childs := ∅; d := -1 |}) as [st Hst];
    [simpl; lia|].
  assert (Hrun : filterTreeByPredicate predicate (flatten items)
                 = Normal (roots st)).
  { unfold filterTreeByPredicate. by rewrite Hst. }
  rewrite Hrun. f_equal. by apply (scan_returns_reconstruction predicate items).
Qed.

Lemma filterTree_shallow_total_witness :
  filterTreeByPredicate (label_is "A1") (flatten [item_A])
  = Normal (reconstruct (label_is "A1") [item_A]).
Proof.
  apply (filterTree_shallow_total (label_is "A1") [item_A]); [reflexivity|].
  repeat constructor; simpl; (discriminate || lia).
Defined.

(** ** The reconstruction retains the matches and their ancestors *)

Section Retained.
Variable predicate : TaxonomyItem → bool.

Lemma preorder_item_unfold item :
  preorder_item item = item :: preorder (default [] (children item)).
Proof. by destruct item as [l p k [cs|] c]. Qed.

Lemma preorder_app xs ys : preorder (xs ++ ys) = preorder xs ++ preorder ys.
Proof. unfold preorder. by rewrite map_app, concat_app. Qed.

Lemma elem_of_preorder (n : TaxonomyItem) cs :
  n ∈ preorder cs ↔ ∃ c, c ∈ cs ∧ n ∈ preorder_item c.
Proof.
  unfold preorder. induction cs as [|c cs IH]; simpl.
  - split; [by intros ?%elem_of_nil|]. by intros (c & ?%elem_of_nil & _).
  - rewrite elem_of_app, IH. split.
    + intros [H|(c' & Hc' & H)].
      * exists c. split; [by left|done].
      * exists c'. split; [by right|done].
    + intros (c' & [->|Hc']%elem_of_cons & H); [by left|].
      right. by exists c'.
Qed.

(** A node is retained exactly when the predicate holds of it or of one of
    its descendants. *)
Lemma retained_spec item :
  retained predicate item = true
  ↔ ∃ n, n ∈ preorder_item item ∧ predicate n = true.
Proof.
  induction item as [l p k c|l p k cs c IH] using TaxonomyItem_tree_ind.
  - simpl. rewrite orb_false_r. split.
    + intros Hp. eexists. split; [by apply list_elem_of_singleton|done].
    + by intros (n & ->%list_elem_of_singleton & Hp).
  - rewrite preorder_item_unfold.
    cbn [retained children default]. rewrite orb_true_iff. split.
    + intros [Hp|Hex].
      * eexists. split; [by left|done].
      * apply existsb_exists in Hex as (x & Hx & Hr).
        apply list_elem_of_In in Hx. rewrite Forall_forall in IH.
        apply (IH x Hx) in Hr as (n & Hn & Hp).
        exists n. split; [|done]. right. apply elem_of_preorder. by exists x.
    + intros (n & [->|Hn]%elem_of_cons & Hp); [by left|]. right.
      apply elem_of_preorder in Hn as (x & Hx & Hn).
      apply existsb_exists. exists x. split; [by apply list_elem_of_In|].
      rewrite Forall_forall in IH. apply (IH x Hx). by exists n.
Qed.

Lemma reconstruct_nodes_forest cs :
  Forall (λ c, ∀ n, n ∈ preorder (kept_of predicate c)
                    ↔ ∃ m, m ∈ preorder_item c
                           ∧ retained predicate m = true
                           ∧ n = prune predicate m) cs →
  ∀ n, n ∈ preorder (reconstruct predicate cs)
       ↔ ∃ m, m ∈ preorder cs ∧ retained predicate m = true
              ∧ n = prune predicate m.
Proof.
  induction 1 as [|c cs Hc _ IH]; intros n.
  - split; [by intros ?%elem_of_nil|]. by intros (m & ?%elem_of_nil & _).
  - rewrite reconstruct_cons, preorder_app, elem_of_app, Hc, IH.
    change (preorder (c :: cs)) with (preorder_item c ++ preorder cs).
    setoid_rewrite elem_of_app. split.
    + intros [(m & Hm & H)|(m & Hm & H)]; exists m; (split; [|done]);
        [by left|by right].
    + intros (m & [Hm|Hm] & H); [left|right]; by exists m.
Qed.

Lemma reconstruct_nodes_node item :
  (∀ n, n ∈ preorder (reconstruct predicate (default [] (children item)))
        ↔ ∃ m, m ∈ preorder (default [] (children item))
               ∧ retained predicate m = true ∧ n = prune predicate m) →
  ∀ n, n ∈ preorder (kept_of predicate item)
       ↔ ∃ m, m ∈ preorder_item item ∧ retained predicate m = true
              ∧ n = prune predicate m.
Proof.
  intros Hforest n. rewrite (preorder_item_unfold item). unfold kept_of.
  destruct (retained predicate item) eqn:Hr.
  - change (preorder [prune predicate item])
      with (preorder_item (prune predicate item) ++ []).
    rewrite app_nil_r, preorder_item_unfold, prune_unfold.
    cbn [children with_children default].
    rewrite elem_of_cons, Hforest. split.
    + intros [->|(m & Hm & Hrm & ->)].
      * exists item. split_and!; [by left|done|].
        by rewrite (prune_unfold predicate item).
      * exists m. split_and!; [by right|done|done].
    + intros (m & [->|Hm]%elem_of_cons & Hrm & ->).
      * left. by rewrite (prune_unfold predicate item).
      * right. by exists m.
  - split; [by intros ?%elem_of_nil|].
    intros (m & [->|Hm]%elem_of_cons & Hrm & ->); [congruence|].
    assert (Hin : prune predicate m
                  ∈ preorder (reconstruct predicate
                                (default [] (children item))))
      by (apply Hforest; by exists m).
    rewrite retained_unfold in Hr.
    destruct (reconstruct predicate (default [] (children item)));
      [by apply elem_of_nil in Hin|].
    by rewrite orb_true_r in Hr.
Qed.

Lemma reconstruct_nodes_item item :
  ∀ n, n ∈ preorder (kept_of predicate item)
       ↔ ∃ m, m ∈ preorder_item item ∧ retained predicate m = true
              ∧ n = prune predicate m.
Proof.
  induction item as [l p k c|l p k cs c IH] using TaxonomyItem_tree_ind;
    apply reconstruct_nodes_node; simpl.
  - apply (reconstruct_nodes_forest []). constructor.
  - by apply reconstruct_nodes_forest.
Qed.

(** The nodes of the reconstruction are the pruned copies of the retained
    nodes of the tree, and of no other node. *)
Lemma reconstruct_nodes items :
  ∀ n, n ∈ preorder (reconstruct predicate items)
       ↔ ∃ m, m ∈ preorder items ∧ retained predicate m = true
              ∧ n = prune predicate m.
Proof.
  apply reconstruct_nodes_forest, Forall_forall.
  intros c _. apply reconstruct_nodes_item.
Qed.
End Retained.

(** Whenever [filterTreeByPredicate] returns, on the flattening of a tree
    that satisfies the data-model invariant, it returns the reconstruction:
    its nodes are the copies of exactly those nodes of which the predicate
    holds or which have a descendant of which it holds, in their original
    order and nesting. *)
Theorem filterTree_partial_correct
    (predicate : TaxonomyItem → bool) (items forest : list TaxonomyItem) :
  well_formed items = true →
  filterTreeByPredicate predicate (flatten items) = Normal forest →
  forest = reconstruct predicate items
  ∧ ∀ n, n ∈ preorder forest
         ↔ ∃ m, m ∈ preorder items
                ∧ (∃ x, x ∈ preorder_item m ∧ predicate x = true)
                ∧ n = prune predicate m.
Proof.
  intros Hwf Hrun.
  rewrite (scan_returns_reconstruction predicate items forest Hwf Hrun).
  split; [done|]. intros n. rewrite reconstruct_nodes.
  by setoid_rewrite retained_spec.
Qed.

Lemma filterTree_partial_correct_witness :
  [with_children item_A [with_children item_A1 []]]
  = reconstruct (label_is "A1") [item_A].
Proof.
  apply (filterTree_partial_correct (label_is "A1") [item_A]);
    [reflexivity | vm_compute; reflexivity].
Defined.

(** ** Further properties of the path utilities and the selection *)

(** [isSubArray] decides strict descent: it holds exactly when [item]
    extends [parent] by at least one label. It is therefore a strict
    order on paths: irreflexive, asymmetric and transitive. *)
Theorem isSubArray_strict_prefix (item parent : TaxonomyPath) :
  (isSubArray item parent = true
   ↔ ∃ suffix, suffix ≠ [] ∧ item = parent ++ suffix)
  ∧ isSubArray item item = false
  ∧ (isSubArray item parent = true → isSubArray parent item = false)
  ∧ (∀ top, isSubArray item parent = true → isSubArray parent top = true →
            isSubArray item top = true).
Proof.
  split_and!.
  - apply isSubArray_spec.
  - unfold isSubArray. by rewrite Nat.leb_refl.
  - intros H. unfold isSubArray in *.
    destruct (length item <=? length parent)%nat eqn:Hlen; [done|].
    apply Nat.leb_gt in Hlen.
    by rewrite (proj2 (Nat.leb_le (length parent) (length item))) by lia.
  - intros top [s1 [Hs1 ->]]%isSubArray_spec [s2 [Hs2 ->]]%isSubArray_spec.
    apply isSubArray_spec. exists (s2 ++ s1). split.
    + destruct s2; [done|discriminate].
    + by rewrite app_assoc.
Qed.

Lemma checked_app (selected : list TaxonomyPath) (p q : TaxonomyPath) :
  checked (selected ++ [p]) q = checked selected q || bool_decide (q = p).
Proof.
  apply eq_true_iff_eq.
  rewrite orb_true_iff, !checked_spec, bool_decide_eq_true, elem_of_app,
    list_elem_of_singleton. done.
Qed.

Lemma checked_setSelected
    (selected : list TaxonomyPath) (p q : TaxonomyPath) (value : bool) :
  checked (setSelected selected p value) q
  = if bool_decide (q = p) then value else checked selected q.
Proof.
  destruct value.
  - unfold setSelected. rewrite checked_app.
    case_bool_decide; [by rewrite orb_true_r|by rewrite orb_false_r].
  - apply eq_true_iff_eq. rewrite checked_spec, elem_of_setSelected_off.
    case_bool_decide as Hqp.
    + split; [by intros [_ ?]|done].
    + rewrite checked_spec. split; [by intros [? _]|done].
Qed.

(** Toggling a path changes its own checked state to the value given and
    the checked state of no other path: in particular neither its
    ancestors nor its descendants are selected or deselected with it. *)
Theorem setSelected_checked
    (selected : list TaxonomyPath) (p q : TaxonomyPath) (value : bool) :
  checked (setSelected selected p value) q
  = (if bool_decide (q = p) then value else checked selected q)
  ∧ (isSubArray q p = true ∨ isSubArray p q = true →
     checked (setSelected selected p value) q = checked selected q).
Proof.
  rewrite checked_setSelected. split; [done|].
  intros Hrel. case_bool_decide as Hqp; [|done]. subst q.
  assert (Hirr : isSubArray p p = false)
    by (unfold isSubArray; by rewrite Nat.leb_refl).
  destruct Hrel; congruence.
Qed.

(** After a path [c] is toggled on, a path is shown indeterminate exactly
    when it was not checked, is not [c] itself, and either already had a
    selected descendant or is a strict ancestor of [c]. After [c] is
    toggled off, a path is shown indeterminate exactly when it is not
    checked any more and a selected strict descendant other than [c]
    remains. *)
Theorem setIndeterminate_after_toggle
    (selected : list TaxonomyPath) (c p : TaxonomyPath) :
  (setIndeterminate (setSelected selected c true) p = true
   ↔ checked selected p = false ∧ p ≠ c
     ∧ (isChildSelected selected p = true ∨ strict_descendant c p))
  ∧ (setIndeterminate (setSelected selected c false) p = true
     ↔ (checked selected p = false ∨ p = c)
       ∧ ∃ x, x ∈ selected ∧ x ≠ c ∧ strict_descendant x p).
Proof.
  split.
  - unfold setIndeterminate. rewrite checked_setSelected.
    assert (Hchild : isChildSelected (setSelected selected c true) p = true
              ↔ isChildSelected selected p = true ∨ strict_descendant c p).
    { rewrite !isChildSelected_spec. unfold setSelected.
      setoid_rewrite elem_of_app. setoid_rewrite list_elem_of_singleton.
      split.
      - intros (x & [Hx| ->] & Hd); [left; by exists x|by right].
      - intros [(x & Hx & Hd)|Hd]; [exists x|exists c]; split; auto. }
    case_bool_decide as Hpc.
    + split; [done|]. by intros (_ & ? & _).
    + destruct (checked selected p).
      * split; [done|]. by intros (? & _).
      * rewrite Hchild. split; [by intros ?|by intros (_ & _ & ?)].
  - unfold setIndeterminate. rewrite checked_setSelected.
    assert (Hchild : isChildSelected (setSelected selected c false) p = true
              ↔ ∃ x, x ∈ selected ∧ x ≠ c ∧ strict_descendant x p).
    { rewrite isChildSelected_spec.
      setoid_rewrite elem_of_setSelected_off. split.
      - intros (x & [Hx Hne] & Hd). by exists x.
      - intros (x & Hx & Hne & Hd). by exists x. }
    case_bool_decide as Hpc.
    + rewrite Hchild. split; [intros ?; split; [by right|done]|by intros [_ ?]].
    + destruct (checked selected p).
      * split; [done|]. by intros [[?|?] _].
      * rewrite Hchild. split; [intros ?; split; [by left|done]|by intros [_ ?]].
Qed.

(** ** The cap on the number of selected paths *)





(** ** The rows of [SelectedList] *)

Lemma append_cons (c : ascii) (s r : string) :
  String c s +:+ r = String c (s +:+ r).
Proof. reflexivity. Qed.

Lemma append_empty_l (r : string) : EmptyString +:+ r = r.
Proof. reflexivity. Qed.

Lemma append_empty_r (s : string) : s +:+ EmptyString = s.
Proof. induction s as [|c s IH]; [done|]. by rewrite append_cons, IH. Qed.

Lemma includes_bar_cons (c : ascii) (s : string) :
  includes (String c s) "|" = false
  ↔ c ≠ "|"%char ∧ includes s "|" = false.
Proof.
  cbn [includes String.prefix].
  destruct (ascii_dec "|" c) as [<-|Hne].
  - split; [by destruct s|by intros [? _]].
  - split; [intros H; split; [congruence|done]|by intros [_ ?]].
Qed.

(** A label without [|] ends where the first [|] of the key stands. *)
Lemma key_head_unique (x y r1 r2 : string) :
  includes x "|" = false → includes y "|" = false →
  (r1 = EmptyString ∨ ∃ r, r1 = String "|" r) →
  (r2 = EmptyString ∨ ∃ r, r2 = String "|" r) →
  x +:+ r1 = y +:+ r2 → x = y ∧ r1 = r2.
Proof.
  revert y. induction x as [|c x IH]; intros [|c' y] Hx Hy Hr1 Hr2 Heq;
    rewrite ?append_cons, ?append_empty_l in Heq.
  - done.
  - apply includes_bar_cons in Hy as [Hc' _].
    destruct Hr1 as [->|[r ->]]; [done|]. congruence.
  - apply includes_bar_cons in Hx as [Hc _].
    destruct Hr2 as [->|[r ->]]; [done|]. congruence.
  - apply includes_bar_cons in Hx as [_ Hx].
    apply includes_bar_cons in Hy as [_ Hy].
    injection Heq as -> Heq. destruct (IH y Hx Hy Hr1 Hr2 Heq) as [-> ->].
    done.
Qed.

Lemma join_bar_cons (x : string) (rest : list string) :
  join "|" (x :: rest)
  = x +:+ match rest with
          | [] => EmptyString
          | _ :: _ => String "|" (join "|" rest)
          end.
Proof. destruct rest; cbn [join]; [by rewrite append_empty_r|done]. Qed.

Lemma SelectedList_key_inj (a b : TaxonomyPath) :
  a ≠ [] → b ≠ [] →
  Forall (λ l, includes l "|" = false) a →
  Forall (λ l, includes l "|" = false) b →
  SelectedList_key a = SelectedList_key b → a = b.
Proof.
  unfold SelectedList_key. revert b.
  induction a as [|x a IH]; intros [|y b] Ha Hb Hla Hlb Heq; try done.
  apply Forall_cons in Hla as [Hx Hla]. apply Forall_cons in Hlb as [Hy Hlb].
  rewrite !join_bar_cons in Heq.
  apply key_head_unique in Heq as [-> Heq]; [|done|done| |].
  - f_equal. destruct a as [|x' a], b as [|y' b]; try done.
    apply IH; [done|done|done|done|]. by injection Heq.
  - destruct a; [by left|right; by eexists].
  - destruct b; [by left|right; by eexists].
Qed.

(** The keys of the rows are pairwise distinct, as React requires, when
    the selected paths are pairwise distinct and non-empty and no label
    contains the character [|] that joins them. *)
Theorem SelectedList_keys_distinct (selected : list TaxonomyPath) :
  Forall (λ p, p ≠ [] ∧ Forall (λ l, includes l "|" = false) p) selected →
  NoDup selected →
  NoDup (SelectedList_key <$> selected).
Proof.
  intros Hok Hnd. induction Hnd as [|p selected Hp Hnd IH]; simpl.
  - constructor.
  - apply Forall_cons in Hok as [[Hne Hlabels] Hok].
    apply NoDup_cons. split; [|by apply IH].
    intros (q & Hkey & Hq)%list_elem_of_fmap.
    rewrite Forall_forall in Hok. destruct (Hok q Hq) as [Hqne Hqlabels].
    apply SelectedList_key_inj in Hkey; [by subst|done..].
Qed.

Lemma SelectedList_keys_distinct_witness :
  NoDup (SelectedList_key
           <$> [["A"; "A1"]%string; ["A"; "A2"; "A2a"]%string]).
Proof.
  apply (SelectedList_keys_distinct
           [["A"; "A1"]%string; ["A"; "A2"; "A2a"]%string]).
  - repeat constructor; discriminate.
  - apply NoDup_cons. split; [|apply NoDup_singleton].
    intros H%list_elem_of_singleton. discriminate H.
Defined.

(** Without those conditions keys collide: a label that contains [|] is
    read as two labels, and the empty path has the key of the path made of
    one empty label. *)
Lemma SelectedList_key_collisions :
  SelectedList_key ["A|B"%string] = SelectedList_key ["A"; "B"]%string
  ∧ SelectedList_key [] = SelectedList_key [EmptyString].
Proof. split; reflexivity. Qed.

(** The text of a row is missing only for the empty path shown by its
    last label; otherwise it is the joined path or the last label. *)
Theorem SelectedList_text_defined
    (options : TaxonomyOptionsContextValue) (path : TaxonomyPath) :
  (SelectedList_text options path = None
   ↔ truthy_opt_bool (showFullPath (ctx_options options)) = false
     ∧ path = [])
  ∧ (∀ front l,
       truthy_opt_bool (showFullPath (ctx_options options)) = false →
       SelectedList_text options (front ++ [l]) = Some l)
  ∧ (∀ l,
       truthy_opt_bool (showFullPath (ctx_options options)) = true →
       SelectedList_text options [l] = Some l).
Proof.
  unfold SelectedList_text. split_and!.
  - destruct (truthy_opt_bool _).
    + split; [done|by intros [? _]].
    + rewrite last_None. split; [done|by intros [_ ?]].
  - intros front l ->. apply last_snoc.
  - intros l ->. done.
Qed.

(** ** The reconstruction keeps the order and the depths *)

Section Order.
Variable predicate : TaxonomyItem → bool.

Lemma filter_retained_nil item :
  retained predicate item = false →
  List.filter (retained predicate) (preorder_item item) = [].
Proof.
  induction item as [l p k c|l p k cs c IH] using TaxonomyItem_tree_ind;
    intros Hr.
  - simpl. simpl in Hr. rewrite orb_false_r in Hr. by rewrite orb_false_r, Hr.
  - rewrite preorder_item_unfold. cbn [List.filter]. rewrite Hr.
    cbn [retained children] in Hr. apply orb_false_elim in Hr as [_ Hr].
    cbn [children default]. unfold preorder.
    induction IH as [|x xs Hx _ IHxs]; simpl in *; [done|].
    apply orb_false_elim in Hr as [Hrx Hrxs].
    by rewrite List.filter_app, (Hx Hrx), (IHxs Hrxs).
Qed.

Lemma preorder_reconstruct_forest cs :
  Forall (λ c, preorder (kept_of predicate c)
               = map (prune predicate)
                   (List.filter (retained predicate) (preorder_item c))) cs →
  preorder (reconstruct predicate cs)
  = map (prune predicate) (List.filter (retained predicate) (preorder cs)).
Proof.
  induction 1 as [|c cs Hc _ IH]; [done|].
  rewrite reconstruct_cons, preorder_app, Hc, IH.
  change (preorder (c :: cs)) with (preorder_item c ++ preorder cs).
  by rewrite List.filter_app, map_app.
Qed.

Lemma preorder_reconstruct_node item :
  preorder (reconstruct predicate (default [] (children item)))
  = map (prune predicate)
      (List.filter (retained predicate)
         (preorder (default [] (children item)))) →
  preorder (kept_of predicate item)
  = map (prune predicate)
      (List.filter (retained predicate) (preorder_item item)).
Proof.
  intros Hforest. unfold kept_of.
  destruct (retained predicate item) eqn:Hr.
  - change (preorder [prune predicate item])
      with (preorder_item (prune predicate item) ++ []).
    rewrite app_nil_r, (preorder_item_unfold (prune _ _)).
    rewrite (preorder_item_unfold item). cbn [List.filter]. rewrite Hr.
    cbn [map]. f_equal. rewrite prune_unfold.
    cbn [children with_children default]. apply Hforest.
  - by rewrite filter_retained_nil.
Qed.

Lemma preorder_reconstruct_item item :
  preorder (kept_of predicate item)
  = map (prune predicate)
      (List.filter (retained predicate) (preorder_item item)).
Proof.
  induction item as [l p k c|l p k cs c IH] using TaxonomyItem_tree_ind;
    apply preorder_reconstruct_node; simpl.
  - done.
  - by apply preorder_reconstruct_forest.
Qed.

Lemma preorder_reconstruct items :
  preorder (reconstruct predicate items)
  = map (prune predicate) (List.filter (retained predicate) (preorder items)).
Proof.
  apply preorder_reconstruct_forest, Forall_forall.
  intros c _. apply preorder_reconstruct_item.
Qed.

Lemma depth_ok_reconstruct cs :
  Forall (λ c, ∀ k, depth_ok k c = true →
                    depth_ok k (prune predicate c) = true) cs →
  ∀ k, forallb (depth_ok k) cs = true →
       forallb (depth_ok k) (reconstruct predicate cs) = true.
Proof.
  induction 1 as [|c cs Hc _ IH]; intros k Hok; [done|].
  simpl in Hok. apply andb_prop in Hok as [Hokc Hokcs].
  rewrite reconstruct_cons. unfold kept_of.
  destruct (retained predicate c); simpl; [|by apply IH].
  by rewrite (Hc k Hokc), (IH k Hokcs).
Qed.

Lemma depth_ok_prune item :
  ∀ k, depth_ok k item = true → depth_ok k (prune predicate item) = true.
Proof.
  induction item as [l p k0 c|l p k0 cs c IH] using TaxonomyItem_tree_ind;
    intros k Hok; rewrite prune_unfold; simpl in *.
  - by rewrite andb_true_r in Hok |- *.
  - apply andb_prop in Hok as [-> Hcs]. simpl.
    by apply depth_ok_reconstruct.
Qed.
End Order.

(** Whenever [filterTreeByPredicate] returns on the flattening of a
    well-formed tree, flattening what it returns gives the retained nodes
    of the flat sequence in their original order, each with its label, path
    and depth unchanged; and the forest returned is well-formed again, each
    node sitting at the nesting level its [depth] says. *)
Theorem filterTree_keeps_order
    (predicate : TaxonomyItem → bool) (items forest : list TaxonomyItem) :
  well_formed items = true →
  filterTreeByPredicate predicate (flatten items) = Normal forest →
  label <$> flatten forest
  = label <$> List.filter (retained predicate) (flatten items)
  ∧ path <$> flatten forest
    = path <$> List.filter (retained predicate) (flatten items)
  ∧ depth <$> flatten forest
    = depth <$> List.filter (retained predicate) (flatten items)
  ∧ well_formed forest = true.
Proof.
  intros Hwf Hrun.
  rewrite (scan_returns_reconstruction predicate items forest Hwf Hrun).
  rewrite !flatten_preorder, preorder_reconstruct.
  assert (Hfields : ∀ m, label (prune predicate m) = label m
                         ∧ path (prune predicate m) = path m
                         ∧ depth (prune predicate m) = depth m).
  { intros m. by rewrite prune_unfold. }
  split_and!.
  - rewrite <- list_fmap_compose. apply list_fmap_ext.
    intros _ m _. apply Hfields.
  - rewrite <- list_fmap_compose. apply list_fmap_ext.
    intros _ m _. apply Hfields.
  - rewrite <- list_fmap_compose. apply list_fmap_ext.
    intros _ m _. apply Hfields.
  - apply depth_ok_reconstruct; [|done].
    apply Forall_forall. intros c _. apply depth_ok_prune.
Qed.

Lemma filterTree_keeps_order_witness :
  path <$> flatten [with_children item_A [with_children item_A1 []]]
  = path <$> List.filter (retained (label_is "A1")) (flatten [item_A]).
Proof.
  apply (filterTree_keeps_order (label_is "A1") [item_A]);
    [reflexivity | vm_compute; reflexivity].
Defined.

(** ** Exactly when the backward scan returns *)

Section Slots.
Variable predicate : TaxonomyItem → bool.

Lemma retained_split item :
  retained predicate item
  = predicate item || has_retained_child predicate item.
Proof. by destruct item as [l p k [cs|] c]. Qed.

Lemma has_retained_child_reconstruct item :
  has_retained_child predicate item
  = match reconstruct predicate (default [] (children item)) with
    | [] => false
    | _ :: _ => true
    end.
Proof.
  unfold has_retained_child, reconstruct.
  induction (default [] (children item)) as [|x cs IH]; simpl; [done|].
  destruct (retained predicate x); simpl; [done|apply IH].
Qed.

Lemma slots_after_app a b slots :
  slots_after predicate (a ++ b) slots
  = match slots_after predicate b slots with
    | Some slots1 => slots_after predicate a slots1
    | None => None
    end.
Proof.
  unfold slots_after. rewrite foldr_app.
  destruct (foldr _ _ b) as [slots1|]; [done|].
  induction a as [|x a IH]; simpl; [done|by rewrite IH].
Qed.

Lemma union_slot (x : Z) (slots : gset Z) :
  x ∈ slots → {[x]} ∪ slots = slots.
Proof. intros Hx. apply subseteq_union_1_L. by apply singleton_subseteq_l. Qed.

Lemma scan_follows_forest cs :
  Forall (λ c, ∀ k st, 0 ≤ k → depth_ok k c = true → enters k st →
                       scan_follows predicate (preorder_item c) st) cs →
  ∀ k st, 0 ≤ k → forallb (depth_ok k) cs = true → enters k st →
          scan_follows predicate (preorder cs) st.
Proof.
  induction 1 as [|c cs Hc _ IH]; intros k st Hk Hok Hin.
  - unfold scan_follows. simpl. by exists st.
  - simpl in Hok. apply andb_prop in Hok as [Hokc Hokcs].
    specialize (IH k st Hk Hokcs Hin). unfold scan_follows in IH |- *.
    change (preorder (c :: cs)) with (preorder_item c ++ preorder cs).
    rewrite slots_after_app, rev_app_distr, forEachC_app.
    destruct (slots_after predicate (preorder cs) _) as [slots1|].
    + destruct IH as (st1 & Hrun1 & Hdom1). rewrite Hrun1.
      cbn [mbind Completion_bind].
      assert (Hin1 : enters k st1).
      { apply (attached_enters k (reconstruct predicate cs) st); [done..|].
        apply (scan_forest predicate cs); [|done..].
        apply Forall_forall. intros x _. apply scan_item. }
      specialize (Hc k st1 Hk Hokc Hin1). unfold scan_follows in Hc.
      by rewrite Hdom1 in Hc.
    + destruct IH as [e Hrun1]. rewrite Hrun1. by exists e.
Qed.

Lemma scan_follows_node item :
  (∀ k st, 0 ≤ k →
           forallb (depth_ok k) (default [] (children item)) = true →
           enters k st →
           scan_follows predicate (preorder (default [] (children item))) st) →
  ∀ k st, 0 ≤ k → depth_ok k item = true → enters k st →
          scan_follows predicate (preorder_item item) st.
Proof.
  intros Hforest k st Hk Hok Hin.
  assert (Hdepth : depth item = k ∧
            forallb (depth_ok (k + 1)) (default [] (children item)) = true).
  { destruct item as [l p k0 [cs|] c]; simpl in Hok |- *;
      apply andb_prop in Hok as [Hd Hcs];
      apply bool_decide_eq_true in Hd; done. }
  destruct Hdepth as [Hdepth Hcs].
  specialize (Hforest (k + 1) st ltac:(lia) Hcs (enters_deeper _ _ Hin)).
  unfold scan_follows in Hforest |- *.
  rewrite preorder_item_unfold. cbn [rev]. rewrite forEachC_app.
  change (slots_after predicate (item :: ?t) ?s)
    with (slots_step predicate item (slots_after predicate t s)).
  destruct (slots_after predicate (preorder _) _) as [slots1|];
    [|destruct Hforest as [e ->]; by exists e].
  destruct Hforest as (st1 & Hrun1 & Hdom1). rewrite Hrun1.
  cbn [mbind Completion_bind]. rewrite forEachC_singleton.
  assert (Hatt : attached (k + 1)
                   (reconstruct predicate (default [] (children item)))
                   st st1).
  { apply (scan_forest predicate _); [|lia|done|by apply enters_deeper|done].
    apply Forall_forall. intros x _. apply scan_item. }
  destruct Hin as [Hd Hidle].
  unfold slots_step. rewrite has_retained_child_reconstruct.
  destruct (reconstruct predicate (default [] (children item)))
    as [|t kept] eqn:Hrec.
  - simpl in Hatt. subst st1. destruct (predicate item) eqn:Hp.
    + destruct (decide (k = 0)) as [->|Hk0].
      * rewrite body_match_root by (done || lia).
        rewrite bool_decide_eq_true_2 by done. by eexists.
      * rewrite body_match_child by (done || lia).
        rewrite bool_decide_eq_false_2 by lia. eexists. split; [done|].
        simpl. by rewrite dom_insert_L, Hdom1.
    + rewrite body_skip by (done || lia). by eexists.
  - simpl in Hatt. destruct Hatt as (Hd1 & _ & Hc1 & _ & _).
    replace (k + 1 - 1) with k in * by lia. specialize (Hc1 ltac:(lia)).
    assert (Hk_slot : k ∈ slots1).
    { rewrite <- Hdom1. apply elem_of_dom. by eexists. }
    destruct (decide (k = 0)) as [->|Hk0].
    + rewrite body_close_root by congruence.
      rewrite bool_decide_eq_true_2 by (left; done). eexists. split; [done|].
      simpl. rewrite dom_insert_L, Hdom1. by apply union_slot.
    + rewrite body_close_child by congruence. rewrite Hd1, Hdepth.
      destruct (childs st1 !! (k - 1)) as [siblings|] eqn:Hs.
      * assert (Hparent : k - 1 ∈ slots1).
        { rewrite <- Hdom1. apply elem_of_dom. by eexists. }
        rewrite bool_decide_eq_true_2 by (right; done).
        eexists. split; [done|]. simpl.
        rewrite !dom_insert_L, Hdom1.
        by rewrite (union_slot k), (union_slot (k - 1)).
      * rewrite bool_decide_eq_false_2; [by eexists|].
        intros [?|Hparent]; [done|].
        rewrite <- Hdom1 in Hparent. apply elem_of_dom in Hparent as [? ?].
        congruence.
Qed.

Lemma scan_follows_item item :
  ∀ k st, 0 ≤ k → depth_ok k item = true → enters k st →
          scan_follows predicate (preorder_item item) st.
Proof.
  induction item as [l p k0 c|l p k0 cs c IH] using TaxonomyItem_tree_ind;
    apply scan_follows_node; simpl.
  - apply (scan_follows_forest []). constructor.
  - by apply scan_follows_forest.
Qed.
End Slots.

Section SlotsFlat.
Variable predicate : TaxonomyItem → bool.

Lemma slots_after_cons n t slots :
  slots_after predicate (n :: t) slots
  = slots_step predicate n (slots_after predicate t slots).
Proof. reflexivity. Qed.

(** The slots that exist after a scan that did not throw: those it
    started with, and the slot of the parent's level of every retained
    node that is not a root. *)
Lemma slots_after_members flat slots :
  ∀ slots', slots_after predicate flat slots = Some slots' →
  ∀ j, j ∈ slots'
       ↔ j ∈ slots
         ∨ ∃ m, m ∈ flat ∧ retained predicate m = true
                ∧ depth m ≠ 0 ∧ depth m - 1 = j.
Proof.
  induction flat as [|n t IH]; intros slots' Hrun j.
  - injection Hrun as <-. split; [by left|].
    by intros [?|(m & ?%elem_of_nil & _)].
  - rewrite slots_after_cons in Hrun.
    destruct (slots_after predicate t slots) as [slots1|]; [|done].
    specialize (IH slots1 eq_refl). unfold slots_step in Hrun.
    assert (Hold : j ∈ slots1 →
              j ∈ slots ∨ ∃ m, m ∈ n :: t ∧ retained predicate m = true
                               ∧ depth m ≠ 0 ∧ depth m - 1 = j).
    { intros [?|(m & Hm & ?)]%IH; [by left|right].
      exists m. split; [by right|done]. }
    assert (Hnew : (j ∈ slots ∨ ∃ m, m ∈ n :: t ∧ retained predicate m = true
                                     ∧ depth m ≠ 0 ∧ depth m - 1 = j) →
              j ∈ slots1
              ∨ (retained predicate n = true ∧ depth n ≠ 0
                 ∧ depth n - 1 = j)).
    { intros [?|(m & [->|Hm]%elem_of_cons & Hr & H0 & Hj)].
      - left. apply IH. by left.
      - by right.
      - left. apply IH. right. by exists m. }
    rewrite (retained_split predicate n) in Hnew.
    destruct (has_retained_child predicate n) eqn:Hc.
    + case_bool_decide as Hslot; [|done]. injection Hrun as <-.
      split; [done|]. intros [?|(_ & H0 & <-)]%Hnew; [done|].
      by destruct Hslot.
    + destruct (predicate n) eqn:Hp; injection Hrun as <-.
      * case_bool_decide as H0.
        -- split; [done|]. by intros [?|(_ & ? & _)]%Hnew.
        -- rewrite elem_of_union, elem_of_singleton. split.
           ++ intros [->|?]; [|by auto]. right. exists n.
              split; [by left|]. split; [|done].
              by rewrite (retained_split predicate n), Hp.
           ++ intros [?|(_ & _ & <-)]%Hnew; by auto.
      * split; [done|]. by intros [?|(? & _)]%Hnew.
Qed.

(** The scan does not throw exactly when every node that is closed, other
    than a root, finds the slot of its parent's level: it was there from
    the start, or a retained node of the same depth stands later in the
    sequence. *)
Lemma slots_after_is_Some flat slots :
  is_Some (slots_after predicate flat slots)
  ↔ ∀ pre n post,
      flat = pre ++ n :: post →
      has_retained_child predicate n = true → depth n ≠ 0 →
      depth n - 1 ∈ slots
      ∨ ∃ m, m ∈ post ∧ retained predicate m = true ∧ depth m = depth n.
Proof.
  induction flat as [|n t IH].
  - split; [|by eexists]. by intros _ [|x pre] n post Heq.
  - rewrite slots_after_cons. split.
    + intros Hsome.
      destruct (slots_after predicate t slots) as [slots1|] eqn:Ht;
        [|by destruct Hsome].
      intros [|x pre] n' post Heq Hchild H0; injection Heq as <- Heq.
      * subst post. unfold slots_step in Hsome. rewrite Hchild in Hsome.
        case_bool_decide as Hslot; [|by destruct Hsome].
        destruct Hslot as [?|Hslot]; [done|].
        apply (slots_after_members t slots slots1 Ht) in Hslot
          as [?|(m & Hm & Hr & _ & Hd)]; [by left|right].
        exists m. split_and!; [done|done|lia].
      * apply (proj1 IH (ltac:(by eexists)) pre n' post); done.
    + intros Hall.
      assert (Ht : is_Some (slots_after predicate t slots)).
      { apply IH. intros pre n' post Heq. apply (Hall (n :: pre)).
        by rewrite Heq. }
      destruct Ht as [slots1 Ht]. rewrite Ht. unfold slots_step.
      destruct (has_retained_child predicate n) eqn:Hchild.
      * rewrite bool_decide_eq_true_2; [by eexists|].
        destruct (decide (depth n = 0)) as [?|H0]; [by left|right].
        apply (slots_after_members t slots slots1 Ht).
        destruct (Hall [] n t eq_refl Hchild H0)
          as [?|(m & Hm & Hr & Hd)]; [by left|right].
        exists m. split_and!; [done|done|lia|lia].
      * destruct (predicate n); by eexists.
Qed.
End SlotsFlat.

(** On the flattening of a well-formed tree, [filterTreeByPredicate]
    returns, and then returns the reconstruction, exactly when every node
    below the roots that has a retained child is followed, later in the
    flat sequence, by a retained node of its own depth. Otherwise it
    throws: the last retained node of some depth has to be closed, and
    the slot of its parent's level was never created. *)
Theorem filterTree_returns_iff
    (predicate : TaxonomyItem → bool) (items : list TaxonomyItem) :
  well_formed items = true →
  (filterTreeByPredicate predicate (flatten items)
   = Normal (reconstruct predicate items)
   ↔ ∀ pre n post,
       flatten items = pre ++ n :: post →
       depth n ≠ 0 →
       (∃ c, c ∈ default [] (children n) ∧ retained predicate c = true) →
       ∃ m, m ∈ post ∧ depth m = depth n ∧ retained predicate m = true)
  ∧ ((∃ e, filterTreeByPredicate predicate (flatten items) = Throw e)
     ∨ filterTreeByPredicate predicate (flatten items)
       = Normal (reconstruct predicate items)).
Proof.
  intros Hwf.
  assert (Hfollows : scan_follows predicate (preorder items)
                       {| roots := []; childs := ∅; d := -1 |}).
  { apply (scan_follows_forest predicate items) with (k := 0);
      [|done|done|].
    - apply Forall_forall. intros c _. apply scan_follows_item.
    - split; [simpl; lia|]. intros j _. simpl. by rewrite lookup_empty. }
  unfold scan_follows in Hfollows. simpl in Hfollows. rewrite dom_empty_L in Hfollows.
  assert (Hchild : ∀ n, has_retained_child predicate n = true
                        ↔ ∃ c, c ∈ default [] (children n)
                               ∧ retained predicate c = true).
  { intros n. unfold has_retained_child. rewrite existsb_exists.
    by setoid_rewrite list_elem_of_In. }
  pose proof (slots_after_is_Some predicate (preorder items) ∅) as Hsome.
  unfold filterTreeByPredicate. rewrite flatten_preorder.
  destruct (slots_after predicate (preorder items) ∅) as [slots|].
  - destruct Hfollows as (st & Hrun & _).
    assert (Hout : roots st = reconstruct predicate items).
    { apply (scan_returns_reconstruction predicate items); [done|].
      unfold filterTreeByPredicate. by rewrite flatten_preorder, Hrun. }
    rewrite Hrun. cbn. rewrite Hout. split; [|by right].
    split; [|done]. intros _ pre n post Heq H0 Hc.
    destruct (proj1 Hsome (ltac:(by eexists)) pre n post Heq
                (proj2 (Hchild n) Hc) H0)
      as [?%elem_of_empty|(m & Hm & Hr & Hd)]; [done|].
    by exists m.
  - destruct Hfollows as [e Hrun]. rewrite Hrun. cbn.
    split; [|left; by exists e]. split; [done|]. intros Hall.
    destruct (proj2 Hsome) as [? ?]; [|done].
    intros pre n post Heq Hc H0. right.
    destruct (Hall pre n post Heq H0 (proj1 (Hchild n) Hc))
      as (m & Hm & Hd & Hr).
    by exists m.
Qed.

Lemma filterTree_returns_iff_witness :
  (∃ e, filterTreeByPredicate (label_is "A2a") (flatten [item_A]) = Throw e)
  ∨ filterTreeByPredicate (label_is "A2a") (flatten [item_A])
    = Normal (reconstruct (label_is "A2a") [item_A]).
Proof.
  apply (filterTree_returns_iff (label_is "A2a") [item_A]). reflexivity.
Defined.

(** ** No match at all *)

Lemma scan_no_match predicate (xs : list TaxonomyItem) :
  Forall (λ item, predicate item = false) xs →
  forEachC (filterTree_body predicate) xs
    {| roots := []; childs := ∅; d := -1 |}
  = if forallb (λ item, negb (depth item =? -1)) xs
    then Normal {| roots := []; childs := ∅; d := -1 |}
    else Throw (TypeError_undefined_slot (-2)).
Proof.
  induction 1 as [|item xs Hp _ IH]; [done|]. cbn [forEachC forallb].
  destruct (depth item =? -1) eqn:Hd; simpl.
  - apply Z.eqb_eq in Hd. unfold filterTree_body. simpl.
    rewrite bool_decide_eq_true_2 by done. simpl.
    rewrite lookup_insert_ne by lia. by rewrite lookup_empty.
  - apply Z.eqb_neq in Hd. rewrite body_skip by done. simpl. apply IH.
Qed.

(** When the predicate holds of no item, of any flat sequence whatever,
    [filterTreeByPredicate] returns the empty forest, unless some item
    has depth [-1]: that item equals the idle value of [d], is closed as
    if it were awaited, and the read of [childs[-2]] throws. *)
Theorem filterTree_no_match
    (predicate : TaxonomyItem → bool) (flat : list TaxonomyItem) :
  Forall (λ item, predicate item = false) flat →
  filterTreeByPredicate predicate flat
  = if forallb (λ item, negb (depth item =? -1)) flat
    then Normal []
    else Throw (TypeError_undefined_slot (-2)).
Proof.
  intros Hnone. unfold filterTreeByPredicate.
  rewrite scan_no_match by by apply Forall_rev.
  assert (Hrev : forallb (λ item, negb (depth item =? -1)) (rev flat)
                 = forallb (λ item, negb (depth item =? -1)) flat).
  { apply eq_true_iff_eq. rewrite !forallb_forall.
    by setoid_rewrite <- in_rev. }
  rewrite Hrev. by destruct (forallb _ flat).
Qed.

Lemma filterTree_no_match_witness :
  filterTreeByPredicate (label_is "nothing") (flatten [item_A]) = Normal [].
Proof.
  apply (filterTree_no_match (label_is "nothing") (flatten [item_A])).
  repeat constructor.
Defined.

(** ** The two dropdowns find the same matches *)

Lemma filter_map_prune (f : TaxonomyItem → bool) predicate xs :
  (∀ m, f (prune predicate m) = f m) →
  List.filter f (map (prune predicate) xs)
  = map (prune predicate) (List.filter f xs).
Proof.
  intros Hf. induction xs as [|x xs IH]; simpl; [done|].
  rewrite Hf. destruct (f x); simpl; by rewrite IH.
Qed.

Lemma filter_retained_predicate predicate xs :
  List.filter predicate (List.filter (retained predicate) xs)
  = List.filter predicate xs.
Proof.
  induction xs as [|x xs IH]; simpl; [done|].
  rewrite (retained_split predicate x).
  destruct (predicate x) eqn:Hp; simpl; [by rewrite Hp, IH|].
  destruct (has_retained_child predicate x); simpl; [by rewrite Hp|done].
Qed.

(** While a search is active, the rows of the virtualised dropdown are the
    matching rows of the tree dropdown, in the same order and with the same
    labels and paths, whenever the latter can be built at all; the
    virtualised list itself is always built. *)
Theorem Dropdown_lists_agree
    (search : string) (items list : list TaxonomyItem) :
  well_formed items = true →
  truthy_string search = true →
  Dropdown_list search (flatten items) items = Normal list →
  label <$> List.filter (Dropdown_predicate search) (flatten list)
  = label <$> Dropdown_list_flat search (flatten items) items
  ∧ path <$> List.filter (Dropdown_predicate search) (flatten list)
    = path <$> Dropdown_list_flat search (flatten items) items.
Proof.
  intros Hwf Hsearch Hlist. unfold Dropdown_list, Dropdown_list_flat in *.
  rewrite Hsearch in *.
  rewrite (scan_returns_reconstruction _ items list Hwf Hlist).
  rewrite !flatten_preorder, preorder_reconstruct.
  rewrite filter_map_prune
    by (intros m; unfold Dropdown_predicate; by rewrite prune_unfold).
  rewrite filter_retained_predicate, <- !list_fmap_compose.
  split; apply list_fmap_ext; intros _ m _; simpl; by rewrite prune_unfold.
Qed.

Lemma Dropdown_lists_agree_witness :
  path <$> List.filter (Dropdown_predicate "a1")
             (flatten [with_children item_A [with_children item_A1 []]])
  = path <$> Dropdown_list_flat "a1" (flatten [item_A]) [item_A].
Proof.
  apply (Dropdown_lists_agree "a1" [item_A]
           [with_children item_A [with_children item_A1 []]]);
    [reflexivity | reflexivity | vm_compute; reflexivity].
Defined.
